(** * JupyterClient (packages/application/src/client.ts)

    A shallow embedding of the [JupyterClient] class: its constructor
    (override-or-default wiring of four collaborators, the derivation of
    the [restored] promise), the context-menu slot written by
    [evtContextMenu], and the parent-chain walk behind
    [contextMenuFirst].

    The JavaScript run time the class relies on (object identities,
    promises with their reaction jobs, [requestAnimationFrame]) is modelled
    in [Js] and [Runtime]; the DOM is a table of [parentNode] properties. *)

From stdpp Require Import base option list gmap strings.
From Stdlib Require Import ZArith Lia.

(** ** JavaScript values *)
Module Js.

(** Object identities (references) and promise identities. *)
Definition loc := positive.
Definition pid := nat.
Bind Scope positive_scope with loc.

Inductive value :=
| VUndefined
| VNull
| VBool (b : bool)
| VNum (z : Z)
| VStr (s : string)
| VObj (l : loc)
| VPromise (p : pid).

(** ToBoolean, as used by [||] and [!]. *)
Definition truthy (v : value) : bool :=
  match v with
  | VUndefined | VNull => false
  | VBool b => b
  | VNum z => negb (z =? 0)%Z
  | VStr s => negb (String.eqb s "")
  | VObj _ | VPromise _ => true
  end.

(** Outcome of running a piece of code: a value, a thrown [TypeError],
    or a loop that has not finished within the given number of
    iterations. *)
Inductive result (A : Type) :=
| Ok (a : A)
| TypeError
| OutOfFuel.
Arguments Ok {A} a.
Arguments TypeError {A}.
Arguments OutOfFuel {A}.

End Js.
Export Js.

(** ** The DOM, as far as the walk reads it *)
Module Dom.

Definition node := positive.
Bind Scope positive_scope with node.

(** The [parentNode] property of every object that has one:
    [d !! n = None] when ['parentNode' in n] is false,
    [Some None] when the property is [null],
    [Some (Some p)] when it refers to [p]. *)
Abbreviation tree := (gmap node (option node)).

(** A DOM event: the identity of the event object and its target, which
    is an object (a node, or something like the window that has no
    [parentNode] property). *)
Record MouseEvent := { event_ref : loc; target : node }.

(** The [while] loop of [_getContextMenuNodes]: as long as the last
    element of [nodes] has a truthy [parentNode] different from itself,
    push that parent. One unit of fuel per iteration. *)
Fixpoint while_parentNode (fuel : nat) (d : tree) (nodes : list node)
  : result (list node) :=
  match last nodes with
  | None => TypeError
  | Some n =>
      match d !! n with
      | Some (Some p) =>
          if bool_decide (n ≠ p) then
            match fuel with
            | 0 => OutOfFuel
            | S fuel' => while_parentNode fuel' d (nodes ++ [p])
            end
          else Ok nodes
      | Some None => Ok nodes
      | None => Ok nodes
      end
  end.

End Dom.
Export Dom.

(** ** Promises, micro-tasks and animation frames *)

(** The part of the ECMAScript promise machinery that the constructor
    sets in motion: promise states, reactions registered by [then],
    reaction jobs and thenable jobs on the micro-task queue, and the
    callbacks of [requestAnimationFrame]. Two simplifications, neither of
    which the constructor can observe: only promises are thenables, and
    a promise that adopted another one is not locked against a second
    call of its resolving function (each resolving function made here is
    called at most once). *)
Module Runtime.

Inductive pstate :=
| Pending
| Fulfilled (v : value)
| Rejected (r : value).

(** The function objects that occur as handlers and callbacks. *)
Inductive closure :=
| Konst (v : value)            (* [() => v] *)
| ResolveFn (p : pid)          (* the resolving function of promise [p] *)
| RejectFn (p : pid)           (* the rejecting function of promise [p] *)
| CallNoArgs (c : closure).    (* [() => { c(); }] *)

(** A reaction registered by [then]: the two optional handlers and the
    promise that [then] returned. *)
Record reaction := {
  on_fulfilled : option closure;
  on_rejected : option closure;
  derived : pid
}.

Record promise := {
  state : pstate;
  reactions : list reaction
}.

Inductive job :=
| ReactionJob (r : reaction) (settled : pstate)
| ThenableJob (p : pid) (thenable : pid).

Record runtime := {
  promises : list promise;      (* indexed by [pid] *)
  jobs : list job;              (* the micro-task queue, oldest first *)
  frame_requests : list closure (* callbacks of [requestAnimationFrame] *)
}.

Definition set_promises (ps : list promise) (rt : runtime) : runtime :=
  {| promises := ps; jobs := jobs rt; frame_requests := frame_requests rt |}.

Definition set_jobs (js : list job) (rt : runtime) : runtime :=
  {| promises := promises rt; jobs := js; frame_requests := frame_requests rt |}.

Definition set_frame_requests (cs : list closure) (rt : runtime) : runtime :=
  {| promises := promises rt; jobs := jobs rt; frame_requests := cs |}.

Definition enqueue (j : job) (rt : runtime) : runtime :=
  set_jobs (jobs rt ++ [j]) rt.

Definition promise_state (rt : runtime) (p : pid) : option pstate :=
  state <$> promises rt !! p.

(** A new pending promise. *)
Definition new_promise (rt : runtime) : pid * runtime :=
  (length (promises rt),
   set_promises (promises rt ++ [{| state := Pending; reactions := [] |}]) rt).

(** FulfillPromise / RejectPromise: a pending promise takes the state [s]
    and one reaction job per registered reaction is queued; a settled
    promise is left alone. *)
Definition settle (p : pid) (s : pstate) (rt : runtime) : runtime :=
  match promises rt !! p with
  | Some {| state := Pending; reactions := rs |} =>
      set_jobs (jobs rt ++ ((λ r, ReactionJob r s) <$> rs))
        (set_promises (<[p := {| state := s; reactions := [] |}]> (promises rt)) rt)
  | _ => rt
  end.

Definition self_resolution : value :=
  VStr "TypeError: Chaining cycle detected for promise".

(** The resolving function: a promise value is adopted through a
    thenable job, any other value fulfils. *)
Definition resolve (p : pid) (x : value) (rt : runtime) : runtime :=
  match promise_state rt p with
  | Some Pending =>
      match x with
      | VPromise q =>
          if bool_decide (p = q) then settle p (Rejected self_resolution) rt
          else enqueue (ThenableJob p q) rt
      | _ => settle p (Fulfilled x) rt
      end
  | _ => rt
  end.

Definition reject (p : pid) (r : value) (rt : runtime) : runtime :=
  settle p (Rejected r) rt.

(** Calling a closure with one argument: its return value and effect. *)
Fixpoint call (c : closure) (arg : value) (rt : runtime) : value * runtime :=
  match c with
  | Konst v => (v, rt)
  | ResolveFn p => (VUndefined, resolve p arg rt)
  | RejectFn p => (VUndefined, reject p arg rt)
  | CallNoArgs c' => (VUndefined, snd (call c' VUndefined rt))
  end.

(** PerformPromiseThen. *)
Definition perform_then (p : pid) (r : reaction) (rt : runtime) : runtime :=
  match promises rt !! p with
  | Some {| state := Pending; reactions := rs |} =>
      set_promises (<[p := {| state := Pending; reactions := rs ++ [r] |}]> (promises rt)) rt
  | Some {| state := s; reactions := _ |} => enqueue (ReactionJob r s) rt
  | None => rt
  end.

(** [p.then(onFulfilled, onRejected)]. *)
Definition promise_then (p : pid) (onF onR : option closure) (rt : runtime)
  : pid * runtime :=
  let '(d, rt1) := new_promise rt in
  (d, perform_then p {| on_fulfilled := onF; on_rejected := onR; derived := d |} rt1).

(** [p.catch(onRejected)] is [p.then(undefined, onRejected)]. *)
Definition promise_catch (p : pid) (onR : closure) (rt : runtime) : pid * runtime :=
  promise_then p None (Some onR) rt.

(** [requestAnimationFrame(c)]. *)
Definition requestAnimationFrame (c : closure) (rt : runtime) : runtime :=
  set_frame_requests (frame_requests rt ++ [c]) rt.

(** One micro-task. *)
Definition run_job (j : job) (rt : runtime) : runtime :=
  match j with
  | ReactionJob r (Fulfilled v) =>
      match on_fulfilled r with
      | None => resolve (derived r) v rt
      | Some c => let '(x, rt1) := call c v rt in resolve (derived r) x rt1
      end
  | ReactionJob r (Rejected e) =>
      match on_rejected r with
      | None => reject (derived r) e rt
      | Some c => let '(x, rt1) := call c e rt in resolve (derived r) x rt1
      end
  | ReactionJob r Pending => rt
  | ThenableJob p q =>
      snd (promise_then q (Some (ResolveFn p)) (Some (RejectFn p)) rt)
  end.

(** Run micro-tasks until the queue is empty; [None] when [fuel] jobs were
    not enough. *)
Fixpoint drain (fuel : nat) (rt : runtime) : option runtime :=
  match jobs rt with
  | [] => Some rt
  | j :: js =>
      match fuel with
      | 0 => None
      | S fuel' => drain fuel' (run_job j (set_jobs js rt))
      end
  end.

(** What the environment can do to an application between two tasks:
    deliver an animation frame, or settle the base application's
    [started] promise. *)
Inductive event :=
| AnimationFrame (timestamp : Z)
| StartedFulfils (v : value)
| StartedRejects (r : value).

Definition run_frame_requests (t : Z) (rt : runtime) : runtime :=
  foldl (λ rt' c, snd (call c (VNum t) rt')) (set_frame_requests [] rt)
        (frame_requests rt).

Definition deliver (started : pid) (ev : event) (rt : runtime) : runtime :=
  match ev with
  | AnimationFrame t => run_frame_requests t rt
  | StartedFulfils v => settle started (Fulfilled v) rt
  | StartedRejects r => settle started (Rejected r) rt
  end.

(** One turn of the event loop: the task, then all micro-tasks. *)
Definition turn (fuel : nat) (started : pid) (ev : event) (rt : runtime)
  : option runtime :=
  drain fuel (deliver started ev rt).

Fixpoint run (fuel : nat) (started : pid) (evs : list event) (rt : runtime)
  : option runtime :=
  match evs with
  | [] => Some rt
  | ev :: evs' =>
      match turn fuel started ev rt with
      | Some rt' => run fuel started evs' rt'
      | None => None
      end
  end.

End Runtime.
Export Runtime.

(** ** The class *)
Module JupyterClient.

(** The collaborators that the constructor may have to build. *)
Inductive object :=
| CommandLinker (commands : value)   (* [new CommandLinker({ commands })] *)
| DocumentRegistry                   (* [new DocumentRegistry()] *)
| ServiceManager                     (* [new ServiceManager()] *)
| Foreign.                           (* any object built elsewhere *)

(** [JupyterClient.IOptions]: four optional properties; [None] is a
    property that is not there. *)
Module IOptions.
Record t := {
  docRegistry : option value;
  commandLinker : option value;
  serviceManager : option value;
  restored : option value
}.
End IOptions.

(** Reading an optional property. *)
Definition prop (o : option value) : value := default VUndefined o.

Inductive field :=
| F_commandLinker
| F_docRegistry
| F_restored
| F_serviceManager
| F_contextMenuEvent.

Global Instance field_eq_dec : EqDecision field.
Proof. solve_decision. Defined.

(** An instance. [commands], [started] and [base] are what [super(options)]
    set up; [assigned] is the history of the assignments to the fields
    declared here, oldest first. *)
Record instance (B : Type) := {
  commands : value;
  started : pid;
  base : B;
  commandLinker : value;
  docRegistry : value;
  restored : value;
  serviceManager : value;
  _contextMenuEvent : option MouseEvent;
  assigned : list field
}.
Arguments commands {B} _.
Arguments started {B} _.
Arguments base {B} _.
Arguments commandLinker {B} _.
Arguments docRegistry {B} _.
Arguments restored {B} _.
Arguments serviceManager {B} _.
Arguments _contextMenuEvent {B} _.
Arguments assigned {B} _.

(** Everything a method can read or change. *)
Record world (B : Type) := {
  this : instance B;
  document : tree;
  heap : gmap loc object;
  rt : runtime
}.
Arguments this {B} _.
Arguments document {B} _.
Arguments heap {B} _.
Arguments rt {B} _.

(** *** The base class, as far as [JupyterClient] uses it *)

(** The phosphor [Application] is outside this file, and its state is an
    abstract type [B]. Its context-menu handler opens the context menu:
    it runs the selectors and commands of the menu items, code of other
    packages that can read the whole application, the slot included
    (through [contextMenuFirst]), and that can change the base state,
    the document, the heap and the run time. It cannot assign the fields
    declared here: the collaborators are [readonly], the slot is
    [private]. *)
Record aftermath (B : Type) := {
  base_after : B;
  document_after : tree;
  heap_after : gmap loc object;
  rt_after : runtime
}.
Arguments base_after {B} _.
Arguments document_after {B} _.
Arguments heap_after {B} _.
Arguments rt_after {B} _.

Class Application (B : Type) := {
  Application_evtContextMenu : MouseEvent → world B → aftermath B
}.

(** The part of a world that the base class's handler may change. *)
Definition surroundings {B : Type} (w : world B) : aftermath B :=
  {| base_after := base (this w); document_after := document w;
     heap_after := heap w; rt_after := rt w |}.

Section Methods.
Context {B : Type} {app : Application B}.

(** State and failure. *)
Definition M (A : Type) : Type := world B → result (A * world B).

Definition ret {A} (a : A) : M A := λ w, Ok (a, w).

Definition bind {A A'} (m : M A) (k : A → M A') : M A' :=
  λ w, match m w with
       | Ok (a, w') => k a w'
       | TypeError => TypeError
       | OutOfFuel => OutOfFuel
       end.

Definition lift {A} (r : result A) : M A :=
  λ w, match r with
       | Ok a => Ok (a, w)
       | TypeError => TypeError
       | OutOfFuel => OutOfFuel
       end.

Definition read {A} (f : world B → A) : M A := λ w, Ok (f w, w).

Definition update (f : world B → world B) : M unit := λ w, Ok (tt, f w).

Definition set_this (f : instance B → instance B) (w : world B) : world B :=
  {| this := f (this w); document := document w; heap := heap w; rt := rt w |}.

Definition set_heap (h : gmap loc object) (w : world B) : world B :=
  {| this := this w; document := document w; heap := h; rt := rt w |}.

Definition set_rt (r : runtime) (w : world B) : world B :=
  {| this := this w; document := document w; heap := heap w; rt := r |}.

(** [a || b]: [b] is only evaluated when [a] is falsy. *)
Definition or_else (a : value) (b : M value) : M value :=
  if truthy a then ret a else b.

(** [new C(...)]: a fresh identity in the heap. *)
Definition new (o : object) : M value :=
  λ w, let l := fresh (dom (heap w)) in
       Ok (VObj l, set_heap (<[l := o]> (heap w)) w).

(** Lifting the run time's promise operations. *)
Definition in_rt {A} (f : runtime → A * runtime) : M A :=
  λ w, let '(a, r) := f (rt w) in Ok (a, set_rt r w).

(** Assignments to the declared fields. *)
Definition assign (f : field) (v : value) (i : instance B) : instance B :=
  {| commands := commands i; started := started i; base := base i;
     commandLinker := if decide (f = F_commandLinker) then v else commandLinker i;
     docRegistry := if decide (f = F_docRegistry) then v else docRegistry i;
     restored := if decide (f = F_restored) then v else restored i;
     serviceManager := if decide (f = F_serviceManager) then v else serviceManager i;
     _contextMenuEvent := _contextMenuEvent i;
     assigned := assigned i ++ [f] |}.

Definition assign_contextMenuEvent (e : MouseEvent) (i : instance B) : instance B :=
  {| commands := commands i; started := started i; base := base i;
     commandLinker := commandLinker i;
     docRegistry := docRegistry i;
     restored := restored i;
     serviceManager := serviceManager i;
     _contextMenuEvent := Some e;
     assigned := assigned i ++ [F_contextMenuEvent] |}.

Definition set_base (b : B) (i : instance B) : instance B :=
  {| commands := commands i; started := started i; base := b;
     commandLinker := commandLinker i;
     docRegistry := docRegistry i;
     restored := restored i;
     serviceManager := serviceManager i;
     _contextMenuEvent := _contextMenuEvent i;
     assigned := assigned i |}.

Local Notation "x ← m ; k" := (bind m (λ x, k))
  (at level 20, m at level 100, k at level 200, only parsing).
Local Notation "m ;; k" := (bind m (λ _, k))
  (at level 100, k at level 200, right associativity, only parsing).

(** The default [restored] promise of the constructor:
    [new Promise(resolve => { requestAnimationFrame(() => { resolve(); }); })].
    The executor runs at once and leaves one frame request behind. *)
Definition default_restored : M pid :=
  in_rt (λ r, let '(p, r1) := new_promise r in
              (p, requestAnimationFrame (CallNoArgs (ResolveFn p)) r1)).

(** The constructor body, run on the world that [super(options)] left. *)
Definition constructor (options : IOptions.t) : M unit :=
  restored0 ← default_restored;
  cl ← or_else (prop (IOptions.commandLinker options))
               (cmds ← read (λ w, commands (this w));
                new (CommandLinker cmds));
  update (set_this (assign F_commandLinker cl));;
  dr ← or_else (prop (IOptions.docRegistry options))
               (new DocumentRegistry);
  update (set_this (assign F_docRegistry dr));;
  rs ← or_else (prop (IOptions.restored options))
               (s ← read (λ w, started (this w));
                p1 ← in_rt (promise_then s (Some (Konst (VPromise restored0))) None);
                p2 ← in_rt (promise_catch p1 (Konst (VPromise restored0)));
                ret (VPromise p2));
  update (set_this (assign F_restored rs));;
  sm ← or_else (prop (IOptions.serviceManager options))
               (new ServiceManager);
  update (set_this (assign F_serviceManager sm)).

(** [_getContextMenuNodes]. *)
Definition _getContextMenuNodes (fuel : nat) : M (list node) :=
  ev ← read (λ w, _contextMenuEvent (this w));
  match ev with
  | None => ret []
  | Some e =>
      d ← read document;
      lift (while_parentNode fuel d [target e])
  end.

(** The [for ... of] loop of [contextMenuFirst], with its early return. *)
Fixpoint for_of_nodes (test : node → bool) (nodes : list node) : option node :=
  match nodes with
  | [] => None
  | n :: rest => if test n then Some n else for_of_nodes test rest
  end.

(** [contextMenuFirst]; [None] is [undefined]. *)
Definition contextMenuFirst (fuel : nat) (test : node → bool) : M (option node) :=
  nodes ← _getContextMenuNodes fuel;
  ret (for_of_nodes test nodes).

(** [evtContextMenu]: record the event, then [super.evtContextMenu(event)]. *)
Definition super_evtContextMenu (event : MouseEvent) : M unit :=
  update (λ w,
    let a := Application_evtContextMenu event w in
    {| this := set_base (base_after a) (this w);
       document := document_after a;
       heap := heap_after a;
       rt := rt_after a |}).

Definition evtContextMenu (event : MouseEvent) : M unit :=
  update (set_this (assign_contextMenuEvent event));;
  super_evtContextMenu event.

End Methods.
End JupyterClient.
Import JupyterClient.

(** ** Vocabulary of the statements *)

(** The parent of a node, when it has one. *)
Definition parent (d : tree) (n : node) : option node :=
  match d !! n with
  | Some (Some p) => Some p
  | _ => None
  end.

(** The [k]-th ancestor: [k] steps along [parentNode]. *)
Fixpoint ancestor (d : tree) (k : nat) (n : node) : option node :=
  match k with
  | 0 => Some n
  | S k' =>
      match parent d n with
      | Some p => ancestor d k' p
      | None => None
      end
  end.

(** A node at which the walk stops: no parent, or its own parent. *)
Definition stops (d : tree) (n : node) : Prop :=
  parent d n = None ∨ parent d n = Some n.

(** The only cycles of [parentNode] links are nodes that are their own
    parent. Every DOM tree is like this. *)
Definition tree_like (d : tree) : Prop :=
  ∀ n k, ancestor d (S k) n = Some n → parent d n = Some n.

(** The chain the walk is meant to build from [n]: [n], its parent, and
    so on, up to the first node that [stops]. *)
Inductive chain (d : tree) : node → list node → Prop :=
| chain_stop n :
    stops d n → chain d n [n]
| chain_step n p l :
    parent d n = Some p → n ≠ p → chain d p l → chain d n (n :: l).

(** Parent links with no end condition (a prefix of an unfinished walk). *)
Inductive links (d : tree) : node → list node → Prop :=
| links_one n : links d n [n]
| links_step n p l :
    parent d n = Some p → n ≠ p → links d p l → links d n (n :: l).

(** A sufficient and checkable condition for [tree_like]: every proper
    parent has a smaller identifier than its child. *)
Definition descending (d : tree) : Prop :=
  map_Forall (λ n o, match o with
                     | Some p => bool_decide (n = p ∨ (p < n)%positive)
                     | None => true
                     end = true) d.

(** What [contextMenuFirst] is meant to return for target [t]: the
    nearest ancestor (the target itself counts, as its 0-th ancestor)
    that passes [test], or nothing when no ancestor passes. *)
Definition first_ancestor (d : tree) (t : node) (test : node → bool)
  (r : option node) : Prop :=
  match r with
  | Some m =>
      ∃ k, ancestor d k t = Some m ∧ test m = true ∧
           ∀ j x, j < k → ancestor d j t = Some x → test x = false
  | None => ∀ k x, ancestor d k t = Some x → test x = false
  end.

(** ** Example worlds *)

(** A base class whose context-menu handler does nothing. *)
Definition inert_application : Application unit :=
  {| Application_evtContextMenu := λ _ w, surroundings w |}.

(** A base class whose handler notes, as its state, the event it finds
    in the slot when it is called. *)
Definition probe_application : Application (option MouseEvent) :=
  {| Application_evtContextMenu := λ _ w,
       {| base_after := _contextMenuEvent (this w);
          document_after := document w;
          heap_after := heap w;
          rt_after := rt w |} |}.

(** The world that [super(options)] leaves: the declared fields are not
    assigned yet, no context-menu event was seen, and the only promise is
    the base application's [started], in state [s]. *)
Definition after_super {B : Type} (b : B) (cmds : value) (d : tree)
  (h : gmap loc object) (s : pstate) : world B :=
  {| this := {| commands := cmds; started := 0; base := b;
                commandLinker := VUndefined; docRegistry := VUndefined;
                restored := VUndefined; serviceManager := VUndefined;
                _contextMenuEvent := None; assigned := [] |};
     document := d;
     heap := h;
     rt := {| promises := [{| state := s; reactions := [] |}];
              jobs := []; frame_requests := [] |} |}.

(** Target A = 3 with parent chain A → B → C, B = 2, C = 1, and C has no
    parent. *)
Definition doc_abc : tree :=
  {[ 3%positive := Some 2%positive; 2%positive := Some 1%positive;
     1%positive := None ]}.

(** A root that is its own parent: 2 → 1 → 1. *)
Definition doc_self : tree :=
  {[ 2%positive := Some 1%positive; 1%positive := Some 1%positive ]}.

(** Two nodes that are each other's parent. *)
Definition doc_two_cycle : tree :=
  {[ 1%positive := Some 2%positive; 2%positive := Some 1%positive ]}.

(** Two targets A = 3 and D = 2 under one common parent C = 1. *)
Definition doc_shared : tree :=
  {[ 3%positive := Some 1%positive; 2%positive := Some 1%positive;
     1%positive := None ]}.

Definition click (r : loc) (t : node) : MouseEvent :=
  {| event_ref := r; target := t |}.

(** An application in which the event [e] is the recorded one. *)
Definition recorded (d : tree) (e : option MouseEvent) : world unit :=
  set_this (λ i, {| commands := commands i; started := started i;
                    base := base i; commandLinker := commandLinker i;
                    docRegistry := docRegistry i; restored := restored i;
                    serviceManager := serviceManager i;
                    _contextMenuEvent := e; assigned := assigned i |})
           (after_super tt (VObj 1%positive) d {[ 1%positive := Foreign ]} Pending).

(** ** The life of an application after its construction *)

(** The task that ran the constructor ends, its micro-tasks run, and then
    the environment delivers the events [evs] one turn at a time. *)
Definition lifetime (fuel : nat) (started : pid) (evs : list event)
  (r : runtime) : option runtime :=
  match drain fuel r with
  | Some r' => run fuel started evs r'
  | None => None
  end.

(** What the events have done so far to the [started] promise and
    whether an animation frame was delivered. *)
Definition observe (sf : pstate * bool) (ev : event) : pstate * bool :=
  match ev with
  | AnimationFrame _ => (sf.1, true)
  | StartedFulfils v =>
      (match sf.1 with Pending => Fulfilled v | s => s end, sf.2)
  | StartedRejects r =>
      (match sf.1 with Pending => Rejected r | s => s end, sf.2)
  end.

Definition history (s0 : pstate) (evs : list event) : pstate * bool :=
  foldl observe (s0, false) evs.

Definition frame_delivered (evs : list event) : Prop :=
  ∃ t, AnimationFrame t ∈ evs.

(** The run time of a freshly constructed application (no [restored]
    override) at rest, by what has happened: [started] is promise 0, the
    default promise 1, the promise of [then] 2, the promise of [catch],
    which is [restored], 3. *)
Definition no_options : IOptions.t :=
  {| IOptions.docRegistry := None; IOptions.commandLinker := None;
     IOptions.serviceManager := None; IOptions.restored := None |}.

Definition constructed_runtime (s : pstate) : runtime :=
  match constructor no_options (after_super tt VUndefined ∅ ∅ s) with
  | Ok (_, w) => rt w
  | _ => rt (after_super tt VUndefined ∅ ∅ s)
  end.

Definition at_rest (r : option runtime) : runtime :=
  default {| promises := []; jobs := []; frame_requests := [] |} r.

Definition stage (sf : pstate * bool) : runtime :=
  Eval vm_compute in
    match sf with
    | (Pending, false) =>
        at_rest (lifetime 4 0 [] (constructed_runtime Pending))
    | (Pending, true) =>
        at_rest (lifetime 4 0 [AnimationFrame 0] (constructed_runtime Pending))
    | (Fulfilled v, false) =>
        at_rest (lifetime 4 0 [] (constructed_runtime (Fulfilled v)))
    | (Fulfilled v, true) =>
        at_rest (lifetime 4 0 [AnimationFrame 0]
                   (constructed_runtime (Fulfilled v)))
    | (Rejected x, false) =>
        at_rest (lifetime 4 0 [] (constructed_runtime (Rejected x)))
    | (Rejected x, true) =>
        at_rest (lifetime 4 0 [AnimationFrame 0]
                   (constructed_runtime (Rejected x)))
    end.

(** ** Override or default *)

(** How a collaborator field [f] of the constructed instance relates to
    the option value [v] it was wired from: the value itself when it is
    truthy; otherwise a reference that did not exist before the
    constructor ran (in heap [h0]) and that the final heap [h1] maps to
    the default object [o]. *)
Definition override_or_default (v f : value) (o : object)
  (h0 h1 : gmap loc object) : Prop :=
  if truthy v then f = v
  else ∃ l, f = VObj l ∧ (l ∉ dom h0) ∧ h1 !! l = Some o.

(** A value that is neither [null] nor [undefined]. *)
Definition non_null (v : value) : Prop := v ≠ VNull ∧ v ≠ VUndefined.

(** A missing, [undefined] or [null] option. *)
Definition nullish (o : option value) : Prop :=
  o = None ∨ o = Some VUndefined ∨ o = Some VNull.

(** Options that differ only in which nullish form a field takes. *)
Definition same_or_nullish (a b : option value) : Prop :=
  a = b ∨ (nullish a ∧ nullish b).

(** ** Calls from outside *)

(** The methods that code outside the class can run on an instance:
    [contextMenuFirst], and [evtContextMenu] through the document's
    [contextmenu] listener. *)
Inductive method :=
| ContextMenuFirst (fuel : nat) (test : node → bool)
| EvtContextMenu (e : MouseEvent).

Definition invoke {B : Type} {app : Application B} (m : method) : M unit :=
  match m with
  | ContextMenuFirst fuel test =>
      bind (contextMenuFirst fuel test) (λ _, ret tt)
  | EvtContextMenu e => evtContextMenu e
  end.

Fixpoint invoke_all {B : Type} {app : Application B} (ms : list method)
  : M unit :=
  match ms with
  | [] => ret tt
  | m :: ms' => bind (invoke m) (λ _, invoke_all ms')
  end.

(** How often a field was assigned. *)
Definition times_assigned {B : Type} (f : field) (i : instance B) : nat :=
  length (filter (λ g, g = f) (assigned i)).

(** Options that override all four collaborators with existing
    instances, and the world they are used in. *)
Definition all_overrides : IOptions.t :=
  {| IOptions.docRegistry := Some (VObj 11);
     IOptions.commandLinker := Some (VObj 10);
     IOptions.serviceManager := Some (VObj 12);
     IOptions.restored := Some (VPromise 0) |}.

Definition world_with_instances : world unit :=
  after_super tt (VObj 1) ∅
    {[ 1%positive := Foreign; 10%positive := Foreign;
       11%positive := Foreign; 12%positive := Foreign ]}
    Pending.

(** Options whose four fields are present but [null]. *)
Definition all_null : IOptions.t :=
  {| IOptions.docRegistry := Some VNull;
     IOptions.commandLinker := Some VNull;
     IOptions.serviceManager := Some VNull;
     IOptions.restored := Some VNull |}.

(** The base application's [started] is rejected, then a frame comes. *)
Definition rejected_then_frame : list event :=
  [StartedRejects (VStr "activation failed"); AnimationFrame 16].

(** ** The world the base handler is called in *)

(** [w'] is [w] with the event [e] in the slot: everything else that a
    reader of the application can see is the same. *)
Definition recorded_in {B : Type} (e : MouseEvent) (w w' : world B) : Prop :=
  _contextMenuEvent (this w') = Some e ∧
  commandLinker (this w') = commandLinker (this w) ∧
  docRegistry (this w') = docRegistry (this w) ∧
  restored (this w') = restored (this w) ∧
  serviceManager (this w') = serviceManager (this w) ∧
  commands (this w') = commands (this w) ∧
  started (this w') = started (this w) ∧
  surroundings w' = surroundings w.

(** ** Sequences of calls and the slot *)

(** The event that a sequence of calls leaves in the slot: the one of
    the last [evtContextMenu] in it, or what was there before. *)
Definition last_recorded (ms : list method) (slot : option MouseEvent)
  : option MouseEvent :=
  foldl (λ s m, match m with
                | EvtContextMenu e => Some e
                | ContextMenuFirst _ _ => s
                end) slot ms.

(** The example application with an event on node [t] of [doc_abc]
    recorded. *)
Definition world_abc_on (t : node) : world unit :=
  recorded doc_abc (Some (click 7 t)).

(** [doc_abc] with one more node, 9, hanging under A. *)
Definition doc_abc_more : tree := <[9%positive := Some 3%positive]> doc_abc.

(** A first event on A, a query, and a second event on B. *)
Definition calls_example : list method :=
  [EvtContextMenu (click 7 3); ContextMenuFirst 2 (λ _, false);
   EvtContextMenu (click 8 2)].

(** * Properties *)

(** ** The walk *)

Lemma parent_Some d n p : parent d n = Some p ↔ d !! n = Some (Some p).
Proof.
  unfold parent. destruct (d !! n) as [[q|]|]; split; congruence.
Qed.

Lemma while_parentNode_unfold fuel d pre n :
  while_parentNode fuel d (pre ++ [n]) =
    match parent d n with
    | Some p =>
        if bool_decide (n ≠ p) then
          match fuel with
          | 0 => OutOfFuel
          | S fuel' => while_parentNode fuel' d ((pre ++ [n]) ++ [p])
          end
        else Ok (pre ++ [n])
    | None => Ok (pre ++ [n])
    end.
Proof.
  unfold parent.
  destruct fuel; simpl; rewrite last_snoc;
    destruct (d !! n) as [[q|]|]; reflexivity.
Qed.

(** Either the walk finishes with the chain, or the fuel ran out on a
    run of [fuel + 2] proper parent links. It never throws. *)
Lemma while_parentNode_cases fuel : ∀ d pre n,
  (∃ l, chain d n l ∧ length l ≤ S fuel ∧
        while_parentNode fuel d (pre ++ [n]) = Ok (pre ++ l)) ∨
  (∃ l, links d n l ∧ length l = fuel + 2 ∧
        while_parentNode fuel d (pre ++ [n]) = OutOfFuel).
Proof.
  induction fuel as [|fuel IH]; intros d pre n;
    rewrite while_parentNode_unfold.
  - destruct (parent d n) as [p|] eqn:Hp.
    + case_bool_decide as Hne.
      * right. exists [n; p]. split; [|done].
        eapply links_step; eauto. constructor.
      * left. exists [n]. split_and!; [|simpl; lia|done].
        subst p. constructor. by right.
    + left. exists [n]. split_and!; [|simpl; lia|done].
      constructor. by left.
  - destruct (parent d n) as [p|] eqn:Hp.
    + case_bool_decide as Hne.
      * destruct (IH d (pre ++ [n]) p) as [(l & Hc & Hl & Hw)|(l & Hc & Hl & Hw)].
        -- left. exists (n :: l). split_and!.
           ++ by eapply chain_step.
           ++ simpl; lia.
           ++ rewrite Hw. by rewrite <- app_assoc.
        -- right. exists (n :: l). split_and!.
           ++ by eapply links_step.
           ++ simpl; lia.
           ++ done.
      * left. exists [n]. split_and!; [|simpl; lia|done].
        subst p. constructor. by right.
    + left. exists [n]. split_and!; [|simpl; lia|done].
      constructor. by left.
Qed.

Lemma chain_links d n l : chain d n l → links d n l.
Proof.
  induction 1 as [n Hs|n p l Hp Hne _ IH]; [constructor|].
  by eapply links_step.
Qed.

Lemma links_head d n l : links d n l → l !! 0 = Some n.
Proof. by destruct 1. Qed.

(** The element at index [j] of a run of links is the [j]-th ancestor. *)
Lemma links_lookup d n l :
  links d n l → ∀ j m, l !! j = Some m → ancestor d j n = Some m.
Proof.
  induction 1 as [n|n p l Hp Hne _ IH]; intros [|j] m Hj; simplify_eq/=;
    try done.
  rewrite Hp. by apply IH.
Qed.

(** Every element but the last has a [parentNode] entry. *)
Lemma links_dom d n l :
  links d n l → ∀ i x, l !! i = Some x → S i < length l → x ∈ dom d.
Proof.
  induction 1 as [n|n p l Hp Hne _ IH]; intros [|i] x Hi Hlen;
    simplify_eq/=; try lia.
  - apply parent_Some in Hp. apply elem_of_dom. eauto.
  - eapply IH; [done|lia].
Qed.

(** In a tree-like document a run of proper links never meets a node
    twice. *)
Lemma links_NoDup d n l : tree_like d → links d n l → NoDup l.
Proof.
  intros Ht. induction 1 as [n|n p l Hp Hne Hl IH].
  - apply NoDup_singleton.
  - apply NoDup_cons. split; [|done].
    intros [j Hj]%list_elem_of_lookup.
    assert (ancestor d (S j) n = Some n) as Hcyc.
    { simpl. rewrite Hp. by eapply links_lookup. }
    apply Ht in Hcyc. congruence.
Qed.

(** Pigeonhole: such a run has at most one element more than the
    document has entries. *)
Lemma links_length d n l :
  tree_like d → links d n l → length l ≤ S (size d).
Proof.
  intros Ht Hl.
  pose proof (links_NoDup _ _ _ Ht Hl) as Hnd.
  set (l' := take (length l - 1) l).
  assert (NoDup l') as Hnd'.
  { eapply sublist_NoDup; [exact Hnd|apply sublist_take]. }
  assert (list_to_set l' ⊆ dom d) as Hsub.
  { intros x [i Hi]%elem_of_list_to_set%list_elem_of_lookup.
    apply lookup_take_Some in Hi as [Hi Hlt].
    eapply links_dom; [done..|lia]. }
  apply subseteq_size in Hsub.
  rewrite size_list_to_set, size_dom in Hsub by done.
  unfold l' in Hsub. rewrite length_take in Hsub. lia.
Qed.

(** Termination: in a tree-like document the walk finishes within
    [size d] iterations, whatever the start. *)
Lemma while_parentNode_total d pre n fuel :
  tree_like d → size d ≤ fuel →
  ∃ l, chain d n l ∧ while_parentNode fuel d (pre ++ [n]) = Ok (pre ++ l).
Proof.
  intros Ht Hfuel.
  destruct (while_parentNode_cases fuel d pre n)
    as [(l & Hc & _ & Hw)|(l & Hl & Hlen & _)]; [by eauto|].
  apply links_length in Hl; [lia|done].
Qed.

(** The chain from a node is unique. *)
Lemma chain_unique d n l1 :
  chain d n l1 → ∀ l2, chain d n l2 → l1 = l2.
Proof.
  induction 1 as [n Hs|n p l Hp Hne _ IH]; intros l2 H2; inversion H2; subst.
  - done.
  - destruct Hs; congruence.
  - match goal with H : stops _ _ |- _ => destruct H; congruence end.
  - f_equal. apply IH. congruence.
Qed.

(** Past the end of the chain the ancestors repeat its last node. *)
Lemma chain_beyond d n l :
  chain d n l → ∀ k m, length l ≤ S k → ancestor d k n = Some m →
  last l = Some m.
Proof.
  induction 1 as [n Hs|n p l Hp Hne Hc IH]; intros k m Hk Hm.
  - simpl. f_equal. clear Hk. induction k as [|k IHk]; simpl in Hm.
    + congruence.
    + destruct Hs as [Hs|Hs]; rewrite Hs in Hm; [done|auto].
  - destruct k as [|k]; simpl in *.
    + inversion Hc; subst; simpl in *; lia.
    + rewrite Hp in Hm. specialize (IH k m ltac:(lia) Hm).
      destruct l; [inversion Hc|done].
Qed.

Lemma chain_nonempty d n l : chain d n l → 0 < length l.
Proof. destruct 1; simpl; lia. Qed.

Lemma for_of_nodes_Some test l m :
  for_of_nodes test l = Some m ↔
  ∃ k, l !! k = Some m ∧ test m = true ∧
       ∀ j x, j < k → l !! j = Some x → test x = false.
Proof.
  induction l as [|a l IH]; simpl.
  - split; [done|]. by intros (k & ? & _).
  - destruct (test a) eqn:Ha.
    + split.
      * intros [= <-]. exists 0. split_and!; [done..|]. intros; lia.
      * intros ([|k] & Hk & Hm & Hlt); simplify_eq/=; [done|].
        specialize (Hlt 0 a ltac:(lia) eq_refl). congruence.
    + rewrite IH. split.
      * intros (k & Hk & Hm & Hlt). exists (S k). split_and!; [done..|].
        intros [|j] x Hj Hx; simplify_eq/=; [done|].
        eapply Hlt; [|done]. lia.
      * intros ([|k] & Hk & Hm & Hlt); simplify_eq/=; [congruence|].
        exists k. split_and!; [done..|].
        intros j x Hj Hx. apply (Hlt (S j)); [lia|done].
Qed.

Lemma for_of_nodes_None test l :
  for_of_nodes test l = None ↔ ∀ x, x ∈ l → test x = false.
Proof.
  induction l as [|a l IH]; simpl.
  - split; [|done]. intros _ x Hx. inversion Hx.
  - destruct (test a) eqn:Ha.
    + split; [done|]. intros H. specialize (H a ltac:(left)). congruence.
    + rewrite IH. split.
      * intros H x [->|Hx]%elem_of_cons; auto.
      * intros H x Hx. apply H. by right.
Qed.

(** The loop over the chain finds the nearest passing ancestor. *)
Lemma for_of_chain d t l test :
  chain d t l → first_ancestor d t test (for_of_nodes test l).
Proof.
  intros Hc. pose proof (chain_links _ _ _ Hc) as Hl.
  destruct (for_of_nodes test l) as [m|] eqn:Hr; simpl.
  - apply for_of_nodes_Some in Hr as (k & Hk & Hm & Hlt).
    exists k. split_and!; [by eapply links_lookup|done|].
    intros j x Hj Hx.
    destruct (l !! j) as [y|] eqn:Hy.
    + pose proof (links_lookup _ _ _ Hl _ _ Hy). simplify_eq. eauto.
    + apply lookup_ge_None in Hy. apply lookup_lt_Some in Hk. lia.
  - intros k x Hx.
    rewrite for_of_nodes_None in Hr. apply Hr.
    destruct (l !! k) as [y|] eqn:Hy.
    + pose proof (links_lookup _ _ _ Hl _ _ Hy). simplify_eq.
      apply list_elem_of_lookup; eauto.
    + apply lookup_ge_None in Hy.
      pose proof (chain_beyond _ _ _ Hc k x ltac:(lia) Hx) as Hlast.
      rewrite last_lookup in Hlast. apply list_elem_of_lookup; eauto.
Qed.

(** [first_ancestor] determines the result. *)
Lemma first_ancestor_unique d t test r1 r2 :
  first_ancestor d t test r1 → first_ancestor d t test r2 → r1 = r2.
Proof.
  destruct r1 as [m1|], r2 as [m2|]; simpl; try done.
  - intros (k1 & H1 & T1 & L1) (k2 & H2 & T2 & L2).
    destruct (lt_eq_lt_dec k1 k2) as [[Hlt| ->]|Hlt].
    + specialize (L2 _ _ Hlt H1). congruence.
    + congruence.
    + specialize (L1 _ _ Hlt H2). congruence.
  - intros (k & H & T & _) Hn. specialize (Hn _ _ H). congruence.
  - intros Hn (k & H & T & _). specialize (Hn _ _ H). congruence.
Qed.

(** Descending parent links make a tree-like document. *)
Lemma descending_parent d n p :
  descending d → parent d n = Some p → n = p ∨ (p < n)%positive.
Proof.
  intros Hd Hp%parent_Some. specialize (Hd _ _ Hp). simpl in Hd.
  by apply bool_decide_eq_true in Hd.
Qed.

Lemma descending_ancestor d k : ∀ n m,
  descending d → ancestor d k n = Some m → (m ≤ n)%positive.
Proof.
  induction k as [|k IH]; intros n m Hd Hm; simpl in Hm.
  - simplify_eq. lia.
  - destruct (parent d n) as [p|] eqn:Hp; [|done].
    apply IH in Hm; [|done].
    destruct (descending_parent _ _ _ Hd Hp); subst; lia.
Qed.

Lemma descending_tree_like d : descending d → tree_like d.
Proof.
  intros Hd n k Hk. simpl in Hk.
  destruct (parent d n) as [p|] eqn:Hp; [|done].
  apply descending_ancestor in Hk; [|done].
  destruct (descending_parent _ _ _ Hd Hp); subst; [done|lia].
Qed.

(** ** [_getContextMenuNodes] and [contextMenuFirst] *)

Section Walk.
Context {B : Type}.
Implicit Types (w : world B) (e : MouseEvent) (test : node → bool).

Lemma getContextMenuNodes_eq fuel w :
  _getContextMenuNodes fuel w =
    match _contextMenuEvent (this w) with
    | None => Ok ([], w)
    | Some e =>
        match while_parentNode fuel (document w) [target e] with
        | Ok l => Ok (l, w)
        | TypeError => TypeError
        | OutOfFuel => OutOfFuel
        end
    end.
Proof.
  unfold _getContextMenuNodes, bind, read, lift, ret.
  destruct (_contextMenuEvent (this w)); [|done].
  by destruct (while_parentNode _ _ _).
Qed.

Lemma contextMenuFirst_eq fuel test w :
  contextMenuFirst fuel test w =
    match _getContextMenuNodes fuel w with
    | Ok (l, w') => Ok (for_of_nodes test l, w')
    | TypeError => TypeError
    | OutOfFuel => OutOfFuel
    end.
Proof.
  unfold contextMenuFirst, bind, ret.
  by destruct (_getContextMenuNodes fuel w) as [[l w']| |].
Qed.

(** What a call of [_getContextMenuNodes] can do when an event is
    recorded: return the chain of its target and leave the world alone,
    or still be in the loop when the fuel is used up. *)
Lemma getContextMenuNodes_recorded fuel w e :
  _contextMenuEvent (this w) = Some e →
  (∃ l, chain (document w) (target e) l ∧ length l ≤ S fuel ∧
        _getContextMenuNodes fuel w = Ok (l, w)) ∨
  (∃ l, links (document w) (target e) l ∧ length l = fuel + 2 ∧
        _getContextMenuNodes fuel w = OutOfFuel).
Proof.
  intros He. rewrite getContextMenuNodes_eq, He.
  destruct (while_parentNode_cases fuel (document w) [] (target e))
    as [(l & Hc & Hl & Hw)|(l & Hc & Hl & Hw)]; simpl in Hw; rewrite Hw;
    [left|right]; eauto.
Qed.

Lemma getContextMenuNodes_total fuel w e :
  _contextMenuEvent (this w) = Some e →
  tree_like (document w) → size (document w) ≤ fuel →
  ∃ l, chain (document w) (target e) l ∧
       _getContextMenuNodes fuel w = Ok (l, w).
Proof.
  intros He Ht Hfuel.
  destruct (getContextMenuNodes_recorded fuel w e He)
    as [(l & Hc & _ & Hw)|(l & Hl & Hlen & _)]; [by eauto|].
  apply links_length in Hl; [lia|done].
Qed.

Lemma contextMenuFirst_cases fuel test w :
  (∃ r, contextMenuFirst fuel test w = Ok (r, w)) ∨
  contextMenuFirst fuel test w = OutOfFuel.
Proof.
  rewrite contextMenuFirst_eq.
  destruct (_contextMenuEvent (this w)) as [e|] eqn:He.
  - destruct (getContextMenuNodes_recorded fuel w e He)
      as [(l & _ & _ & Hw)|(l & _ & _ & Hw)]; rewrite Hw; eauto.
  - rewrite getContextMenuNodes_eq, He. eauto.
Qed.

Lemma contextMenuFirst_sound fuel test w e r w' :
  _contextMenuEvent (this w) = Some e →
  contextMenuFirst fuel test w = Ok (r, w') →
  first_ancestor (document w) (target e) test r.
Proof.
  intros He Hr. rewrite contextMenuFirst_eq in Hr.
  destruct (getContextMenuNodes_recorded fuel w e He)
    as [(l & Hc & _ & Hw)|(l & _ & _ & Hw)]; rewrite Hw in Hr; [|done].
  simplify_eq. by apply for_of_chain.
Qed.

Lemma contextMenuFirst_total fuel test w :
  tree_like (document w) → size (document w) ≤ fuel →
  ∃ r, contextMenuFirst fuel test w = Ok (r, w).
Proof.
  intros Ht Hfuel. rewrite contextMenuFirst_eq.
  destruct (_contextMenuEvent (this w)) as [e|] eqn:He.
  - destruct (getContextMenuNodes_total fuel w e He Ht Hfuel)
      as (l & _ & Hw). rewrite Hw. eauto.
  - rewrite getContextMenuNodes_eq, He. eauto.
Qed.

End Walk.

(** ** Shape of the chain *)

Lemma chain_head d n l : chain d n l → l !! 0 = Some n.
Proof. by destruct 1. Qed.

Lemma chain_consecutive d n l :
  chain d n l → ∀ i a b, l !! i = Some a → l !! S i = Some b →
  parent d a = Some b ∧ a ≠ b.
Proof.
  induction 1 as [n Hs|n p l Hp Hne Hc IH]; intros [|i] a b Ha Hb;
    simplify_eq/=.
  - apply chain_head in Hc. by simplify_eq.
  - by eapply IH.
Qed.

Lemma chain_last d n l : chain d n l → ∃ z, last l = Some z ∧ stops d z.
Proof.
  induction 1 as [n Hs|n p l Hp Hne Hc (z & Hz & Hs)]; [by exists n|].
  exists z. split; [|done]. destruct l; [inversion Hc|done].
Qed.

Lemma chain_self_parent_last d n l z :
  chain d n l → z ∈ l → parent d z = Some z → last l = Some z.
Proof.
  induction 1 as [n Hs|n p l Hp Hne Hc IH]; intros Hz Hzz.
  - apply list_elem_of_singleton in Hz. by subst.
  - apply elem_of_cons in Hz as [->|Hz]; [congruence|].
    specialize (IH Hz Hzz). destruct l; [inversion Hc|done].
Qed.

(** Two nodes that are each other's parent keep the loop running for
    ever: the guard only compares a node with its own parent. *)
Lemma two_cycle_runs_on fuel : ∀ pre,
  while_parentNode fuel doc_two_cycle (pre ++ [1%positive]) = OutOfFuel ∧
  while_parentNode fuel doc_two_cycle (pre ++ [2%positive]) = OutOfFuel.
Proof.
  induction fuel as [|fuel IH]; intros pre;
    rewrite !while_parentNode_unfold; [done|].
  split.
  - change (parent doc_two_cycle 1%positive) with (Some 2%positive). simpl.
    apply IH.
  - change (parent doc_two_cycle 2%positive) with (Some 1%positive). simpl.
    apply IH.
Qed.

Section WalkClaims.
Context {B : Type}.
Implicit Types (w : world B) (e : MouseEvent) (test : node → bool).

(** C5. When a context-menu event is recorded, every list that
    [_getContextMenuNodes] returns starts at the event's target, each
    later element is the [parentNode] of the one before it (which is a
    different node), no element before the last is a node at which the
    walk stops, and the last element has no parent or is its own parent.
    In a tree-like document the call returns this list for every fuel
    from [size (document w)] on, and leaves the world as it was. *)
Theorem getContextMenuNodes_chain w e :
  _contextMenuEvent (this w) = Some e →
  (∀ fuel nodes w', _getContextMenuNodes fuel w = Ok (nodes, w') →
     nodes !! 0 = Some (target e) ∧
     (∀ i a b, nodes !! i = Some a → nodes !! S i = Some b →
               parent (document w) a = Some b ∧ a ≠ b) ∧
     (∀ i a, nodes !! i = Some a → S i < length nodes →
             ¬ stops (document w) a) ∧
     (∃ z, last nodes = Some z ∧ stops (document w) z)) ∧
  (tree_like (document w) →
   ∃ nodes, ∀ fuel, size (document w) ≤ fuel →
            _getContextMenuNodes fuel w = Ok (nodes, w)).
Proof.
  intros He. split.
  - intros fuel nodes w' Hr.
    destruct (getContextMenuNodes_recorded fuel w e He)
      as [(l & Hc & _ & Hw)|(l & _ & _ & Hw)]; [|congruence].
    rewrite Hw in Hr. simplify_eq. split_and!.
    + by eapply chain_head.
    + by eapply chain_consecutive.
    + intros i a Ha Hlt.
      destruct (lookup_lt_is_Some_2 nodes (S i) Hlt) as [b Hb].
      destruct (chain_consecutive _ _ _ Hc _ _ _ Ha Hb) as [Hp Hne].
      intros [Hs|Hs]; congruence.
    + by eapply chain_last.
  - intros Ht.
    destruct (getContextMenuNodes_total (size (document w)) w e He Ht)
      as (l & Hc & _); [done|].
    exists l. intros fuel Hfuel.
    destruct (getContextMenuNodes_total fuel w e He Ht Hfuel)
      as (l' & Hc' & Hw').
    by rewrite (chain_unique _ _ _ Hc _ Hc').
Qed.

(** C8. When a context-menu event is recorded in a tree-like document
    (one whose only [parentNode] cycles are nodes that are their own
    parent), the walk finishes: with fuel for [size (document w)]
    iterations the call returns, the list has at most one node more than
    the document has [parentNode] entries, and a node that is its own
    parent can only be the last one, where the walk stopped. *)
Theorem getContextMenuNodes_terminates w e fuel :
  _contextMenuEvent (this w) = Some e →
  tree_like (document w) →
  size (document w) ≤ fuel →
  ∃ nodes, _getContextMenuNodes fuel w = Ok (nodes, w) ∧
           length nodes ≤ S (size (document w)) ∧
           (∀ z, z ∈ nodes → parent (document w) z = Some z →
                 last nodes = Some z).
Proof.
  intros He Ht Hfuel.
  destruct (getContextMenuNodes_total fuel w e He Ht Hfuel) as (l & Hc & Hw).
  exists l. split_and!; [done| |].
  - apply (links_length _ (target e)); [done|by apply chain_links].
  - intros z. by apply (chain_self_parent_last _ (target e)).
Qed.

(** C1. When a context-menu event is recorded, [contextMenuFirst test]
    returns the nearest ancestor of the event's target that passes
    [test], the target itself being the first candidate, and [undefined]
    when no ancestor passes: this holds of every value the call returns,
    and in a tree-like document the call returns it for every fuel from
    [size (document w)] on. In particular, when the target has parent
    [b], [b] has parent [c] and [c] has none, [contextMenuFirst (n => n
    === b)] returns [b] and [contextMenuFirst (n => false)] returns
    [undefined]. *)
Theorem contextMenuFirst_first_ancestor w e :
  _contextMenuEvent (this w) = Some e →
  (∀ test fuel r w', contextMenuFirst fuel test w = Ok (r, w') →
     first_ancestor (document w) (target e) test r) ∧
  (∀ test, tree_like (document w) →
     ∃ r, first_ancestor (document w) (target e) test r ∧
          ∀ fuel, size (document w) ≤ fuel →
                  contextMenuFirst fuel test w = Ok (r, w)) ∧
  (∀ b c fuel,
     parent (document w) (target e) = Some b →
     parent (document w) b = Some c →
     parent (document w) c = None →
     2 ≤ fuel →
     contextMenuFirst fuel (λ n, bool_decide (n = b)) w = Ok (Some b, w) ∧
     contextMenuFirst fuel (λ _, false) w = Ok (None, w)).
Proof.
  intros He. split_and!.
  - intros test fuel r w' Hr. by eapply contextMenuFirst_sound.
  - intros test Ht.
    destruct (getContextMenuNodes_total (size (document w)) w e He Ht)
      as (l & Hc & _); [done|].
    exists (for_of_nodes test l). split; [by apply for_of_chain|].
    intros fuel Hfuel.
    destruct (getContextMenuNodes_total fuel w e He Ht Hfuel)
      as (l' & Hc' & Hw').
    rewrite contextMenuFirst_eq, Hw'.
    by rewrite (chain_unique _ _ _ Hc _ Hc').
  - intros b c fuel Ha Hb Hc Hfuel.
    assert (target e ≠ b) as Hab by (intros <-; congruence).
    assert (b ≠ c) as Hbc by (intros <-; congruence).
    assert (chain (document w) (target e) [target e; b; c]) as Hch.
    { eapply chain_step; [done..|]. eapply chain_step; [done..|].
      apply chain_stop. by left. }
    destruct (getContextMenuNodes_recorded fuel w e He)
      as [(l & Hl & _ & Hw)|(l & Hl & Hlen & _)].
    + rewrite (chain_unique _ _ _ Hl _ Hch) in Hw.
      rewrite !contextMenuFirst_eq, Hw. simpl.
      rewrite (bool_decide_eq_false_2 _ Hab).
      by rewrite (bool_decide_eq_true_2 (b = b)).
    + exfalso.
      inversion Hl as [|? p1 l1 Hp1 _ Hl1]; subst; [simpl in Hlen; lia|].
      inversion Hl1 as [|? p2 l2 Hp2 _ Hl2]; subst; [simpl in Hlen; lia|].
      inversion Hl2 as [|? p3 l3 Hp3 _ Hl3]; subst; [simpl in Hlen; lia|].
      congruence.
Qed.

(** C6. When no context-menu event is recorded, [contextMenuFirst test]
    returns [undefined], for every [test] and with any fuel, and leaves
    the world as it was. *)
Theorem contextMenuFirst_no_event w test fuel :
  _contextMenuEvent (this w) = None →
  contextMenuFirst fuel test w = Ok (None, w).
Proof.
  intros He. by rewrite contextMenuFirst_eq, getContextMenuNodes_eq, He.
Qed.

(** C9. [contextMenuFirst] changes nothing: a call either returns, and
    then in the very world it was called in (the recorded event, the
    four collaborator fields and everything else are as before), or it
    is still walking when the fuel is used up; it never throws. In a
    tree-like document it returns for every fuel from
    [size (document w)] on. *)
Theorem contextMenuFirst_pure w test fuel :
  ((∃ r, contextMenuFirst fuel test w = Ok (r, w)) ∨
   contextMenuFirst fuel test w = OutOfFuel) ∧
  (∀ r w', contextMenuFirst fuel test w = Ok (r, w') →
     _contextMenuEvent (this w') = _contextMenuEvent (this w) ∧
     commandLinker (this w') = commandLinker (this w) ∧
     docRegistry (this w') = docRegistry (this w) ∧
     restored (this w') = restored (this w) ∧
     serviceManager (this w') = serviceManager (this w) ∧
     w' = w) ∧
  (tree_like (document w) → size (document w) ≤ fuel →
   ∃ r, contextMenuFirst fuel test w = Ok (r, w)).
Proof.
  pose proof (contextMenuFirst_cases fuel test w) as Hcases.
  split_and!; [done| |].
  - intros r w' Hr. destruct Hcases as [[r' Hr']|Hr']; [|congruence].
    rewrite Hr' in Hr. by simplify_eq.
  - by apply contextMenuFirst_total.
Qed.

End WalkClaims.

(** ** The example documents *)

Lemma descending_check (d : tree) :
  bool_decide (map_Forall (λ (n : node) (o : option node),
                 match o with
                 | Some p => bool_decide (n = p ∨ (p < n)%positive)
                 | None => true
                 end = true) d) = true →
  descending d.
Proof. apply bool_decide_eq_true_1. Qed.

Lemma doc_abc_tree_like : tree_like doc_abc.
Proof. apply descending_tree_like, descending_check. by vm_compute. Qed.

Lemma doc_self_tree_like : tree_like doc_self.
Proof. apply descending_tree_like, descending_check. by vm_compute. Qed.

Lemma doc_shared_tree_like : tree_like doc_shared.
Proof. apply descending_tree_like, descending_check. by vm_compute. Qed.

(** ** The walk on the example documents *)

(** Target 2 in [doc_self], whose root 1 is its own parent. *)
Lemma getContextMenuNodes_chain_witness :
  _contextMenuEvent (this (recorded doc_self (Some (click 7 2)))) =
    Some (click 7 2) ∧
  tree_like doc_self ∧
  ∃ nodes, ∀ fuel, size doc_self ≤ fuel →
    _getContextMenuNodes fuel
      (recorded doc_self (Some (click 7 2))) =
    Ok (nodes, recorded doc_self (Some (click 7 2))).
Proof.
  split; [reflexivity|]. split; [exact doc_self_tree_like|].
  exact (proj2 (getContextMenuNodes_chain
                  (recorded doc_self (Some (click 7 2))) (click 7 2)
                  eq_refl)
               doc_self_tree_like).
Defined.

Lemma getContextMenuNodes_terminates_witness :
  _contextMenuEvent (this (recorded doc_self (Some (click 7 2)))) =
    Some (click 7 2) ∧
  tree_like doc_self ∧
  size doc_self ≤ 2 ∧
  ∃ nodes,
    _getContextMenuNodes 2
      (recorded doc_self (Some (click 7 2))) =
    Ok (nodes, recorded doc_self (Some (click 7 2))) ∧
    length nodes ≤ S (size doc_self) ∧
    (∀ z, z ∈ nodes → parent doc_self z = Some z → last nodes = Some z).
Proof.
  split; [reflexivity|]. split; [exact doc_self_tree_like|].
  split; [vm_compute; lia|].
  apply (getContextMenuNodes_terminates
           (recorded doc_self (Some (click 7 2))) (click 7 2) 2).
  - reflexivity.
  - exact doc_self_tree_like.
  - vm_compute; lia.
Defined.

(** The example of the specification: A = 3, B = 2, C = 1. *)
Lemma contextMenuFirst_first_ancestor_witness :
  _contextMenuEvent (this (recorded doc_abc (Some (click 7 3)))) =
    Some (click 7 3) ∧
  contextMenuFirst 2
      (λ n, bool_decide (n = 2%positive))
      (recorded doc_abc (Some (click 7 3))) =
    Ok (Some 2%positive, recorded doc_abc (Some (click 7 3))) ∧
  contextMenuFirst 2 (λ _, false)
      (recorded doc_abc (Some (click 7 3))) =
    Ok (None, recorded doc_abc (Some (click 7 3))).
Proof.
  split; [reflexivity|].
  apply (proj2 (proj2 (contextMenuFirst_first_ancestor
                        
                         (recorded doc_abc (Some (click 7 3))) (click 7 3)
                         eq_refl))
               2%positive 1%positive 2).
  - reflexivity.
  - reflexivity.
  - reflexivity.
  - lia.
Defined.

Lemma contextMenuFirst_no_event_witness :
  _contextMenuEvent (this (recorded doc_abc None)) = None ∧
  contextMenuFirst 0 (λ _, true)
      (recorded doc_abc None) =
    Ok (None, recorded doc_abc None).
Proof.
  split; [reflexivity|].
  apply (contextMenuFirst_no_event). reflexivity.
Defined.

(** ** [evtContextMenu] *)

Section Events.
Context {B : Type} {app : Application B}.
Implicit Types (w : world B) (e : MouseEvent) (test : node → bool).

Lemma evtContextMenu_eq e w :
  evtContextMenu e w =
    Ok (tt,
        let seen := set_this (assign_contextMenuEvent e) w in
        let a := Application_evtContextMenu e seen in
        {| this := set_base (base_after a) (this seen);
           document := document_after a;
           heap := heap_after a;
           rt := rt_after a |}).
Proof. reflexivity. Qed.

(** The world in which the base handler runs: the one [evtContextMenu]
    was called in, with the event already in the slot. *)
Lemma evtContextMenu_forwards e w w1 :
  evtContextMenu e w = Ok (tt, w1) →
  ∃ seen, recorded_in e w seen ∧
          surroundings w1 = Application_evtContextMenu e seen.
Proof.
  rewrite evtContextMenu_eq. intros [= <-].
  exists (set_this (assign_contextMenuEvent e) w). split; [done|].
  cbv zeta. unfold surroundings. simpl.
  by destruct (Application_evtContextMenu e _).
Qed.

Lemma for_of_nodes_ext test test' l :
  (∀ x, x ∈ l → test x = test' x) →
  for_of_nodes test l = for_of_nodes test' l.
Proof.
  induction l as [|a l IH]; intros Hext; simpl; [done|].
  rewrite <- (Hext a) by left.
  rewrite IH; [done|]. intros x Hx. apply Hext. by right.
Qed.

(** The outcome of [contextMenuFirst] depends on [test] only through its
    values on the ancestors of the recorded target. *)
Lemma contextMenuFirst_ext fuel test test' w e :
  _contextMenuEvent (this w) = Some e →
  (∀ k x, ancestor (document w) k (target e) = Some x → test x = test' x) →
  contextMenuFirst fuel test w = contextMenuFirst fuel test' w.
Proof.
  intros He Hext. rewrite !contextMenuFirst_eq.
  destruct (getContextMenuNodes_recorded fuel w e He)
    as [(l & Hc & _ & Hw)|(l & _ & _ & Hw)]; rewrite Hw; [|done].
  f_equal. f_equal. apply for_of_nodes_ext.
  intros x [k Hk]%list_elem_of_lookup. apply (Hext k).
  eapply links_lookup; [by apply chain_links|done].
Qed.

(** C7, as the code has it. [evtContextMenu] always returns. It first
    puts its event in the slot in place of whatever was there, and then
    hands the same event to the base class's handler: the handler runs
    in a world that is the caller's except that the slot already holds
    the new event (so menu code that calls [contextMenuFirst] while the
    menu opens is answered from the new target), and what the handler
    leaves of the base state, the document, the heap and the run time is
    what [evtContextMenu] leaves. After a first event and then a second
    one with target D, [contextMenuFirst] answers from the ancestors of D
    alone: what it returns is the nearest ancestor of D that passes the
    test (so a node of the first event's chain is returned only when it
    is an ancestor of D as well), and two tests that agree on the
    ancestors of D give the same outcome. *)
Theorem evtContextMenu_replaces w e1 e2 :
  ∃ w1 w2,
    evtContextMenu e1 w = Ok (tt, w1) ∧
    evtContextMenu e2 w1 = Ok (tt, w2) ∧
    _contextMenuEvent (this w1) = Some e1 ∧
    _contextMenuEvent (this w2) = Some e2 ∧
    (∃ seen, recorded_in e1 w seen ∧
             surroundings w1 = Application_evtContextMenu e1 seen) ∧
    (∃ seen, recorded_in e2 w1 seen ∧
             surroundings w2 = Application_evtContextMenu e2 seen) ∧
    (∀ fuel test r w3,
       contextMenuFirst fuel test w2 = Ok (r, w3) →
       first_ancestor (document w2) (target e2) test r) ∧
    (∀ fuel test test',
       (∀ k x, ancestor (document w2) k (target e2) = Some x →
               test x = test' x) →
       contextMenuFirst fuel test w2 = contextMenuFirst fuel test' w2) ∧
    (tree_like (document w2) → ∀ fuel test,
       size (document w2) ≤ fuel →
       ∃ r, contextMenuFirst fuel test w2 = Ok (r, w2)).
Proof.
  eexists _, _. split; [apply evtContextMenu_eq|].
  split; [apply evtContextMenu_eq|].
  split; [done|]. split; [done|].
  split; [apply evtContextMenu_forwards, evtContextMenu_eq|].
  split; [apply evtContextMenu_forwards, evtContextMenu_eq|].
  split_and!.
  - intros fuel test r w3 Hr.
    by eapply (contextMenuFirst_sound fuel test _ e2).
  - intros fuel test test' Hext.
    by apply (contextMenuFirst_ext _ _ _ _ e2).
  - intros Ht fuel test Hfuel.
    by apply contextMenuFirst_total.
Qed.

End Events.

(** A handler that notes the event it finds in the slot finds the event
    it is being handed, whatever was recorded before: the slot is
    written before the base class is called. *)
Lemma evtContextMenu_records_first (w : world (option MouseEvent)) e :
  ∃ w1, evtContextMenu (app := probe_application) e w = Ok (tt, w1) ∧
        base (this w1) = Some e.
Proof. eexists. split; [apply evtContextMenu_eq|done]. Qed.

(** C7, as stated, fails when the two targets have an ancestor in
    common. In [doc_shared] the targets A = 3 and D = 2 have the same
    parent C = 1: after a first event on A and a second on D,
    [contextMenuFirst (n => n === C)] returns C, a node of the first
    event's chain. *)
Lemma evtContextMenu_shared_ancestor :
  ¬ (∀ (w : world unit) e1 e2 test fuel w1 nodes1 w2 r w3,
       evtContextMenu (app := inert_application) e1 w = Ok (tt, w1) →
       _getContextMenuNodes fuel w1 = Ok (nodes1, w1) →
       evtContextMenu (app := inert_application) e2 w1 = Ok (tt, w2) →
       contextMenuFirst fuel test w2 = Ok (Some r, w3) →
       r ∉ nodes1).
Proof.
  intros H.
  eapply (H (recorded doc_shared None) (click 7 3) (click 8 2)
            (λ n, bool_decide (n = 1%positive)) 2 _ [3; 1]%positive _
            1%positive _).
  - reflexivity.
  - reflexivity.
  - reflexivity.
  - reflexivity.
  - apply list_elem_of_lookup. by exists 1.
Qed.

(** ** The [restored] promise of a fresh application *)

(** More fuel does not change what a finished run of micro-tasks left. *)
Lemma drain_more n : ∀ r r' k,
  drain n r = Some r' → drain (n + k) r = Some r'.
Proof.
  induction n as [|n IH]; intros r r' k Hd.
  - destruct k; simpl in *; destruct (jobs r); congruence.
  - simpl in *. destruct (jobs r); [done|]. by apply IH.
Qed.

Lemma turn_more n k started ev r r' :
  turn n started ev r = Some r' → turn (n + k) started ev r = Some r'.
Proof. apply drain_more. Qed.

(** One turn takes a stage to the stage of the longer history. *)
Lemma turn_stage k ev sf :
  turn (4 + k) 0 ev (stage sf) = Some (stage (observe sf ev)).
Proof.
  apply turn_more.
  destruct sf as [[| v | x] [|]], ev as [t | v' | x']; reflexivity.
Qed.

Lemma run_stage k evs : ∀ sf,
  run (4 + k) 0 evs (stage sf) = Some (stage (foldl observe sf evs)).
Proof.
  induction evs as [|ev evs IH]; intros sf; [done|].
  cbn [run foldl]. rewrite turn_stage. apply IH.
Qed.

Lemma history_frame evs : ∀ sf,
  (foldl observe sf evs).2 = true ↔ sf.2 = true ∨ frame_delivered evs.
Proof.
  unfold frame_delivered.
  induction evs as [|ev evs IH]; intros sf; simpl.
  - split; [auto|]. intros [?|[t Ht]]; [done|]. inversion Ht.
  - rewrite IH. split.
    + intros [H|[t Ht]].
      * destruct ev as [t| |]; simpl in H; auto.
        right. exists t. by left.
      * right. exists t. by right.
    + intros [H|[t Ht]].
      * left. by destruct ev.
      * apply elem_of_cons in Ht as [<-|Ht]; [by left|].
        right. by exists t.
Qed.

Lemma frame_delivered_cases evs :
  frame_delivered evs ∨ ¬ frame_delivered evs.
Proof.
  pose proof (history_frame evs (Pending, false)) as Hf. simpl in Hf.
  destruct (foldl observe (Pending, false) evs).2.
  - left. by destruct (proj1 Hf eq_refl).
  - right. intros H. by pose proof (proj2 Hf (or_intror H)).
Qed.

(** Once settled, [started] stays as it is. *)
Lemma history_started evs : ∀ sf,
  sf.1 ≠ Pending → (foldl observe sf evs).1 = sf.1.
Proof.
  induction evs as [|ev evs IH]; intros sf Hs; [done|]. simpl.
  rewrite IH; destruct sf as [[| |] f], ev; simpl in *; congruence.
Qed.

(** The states of [started] (0), of the default promise (1) and of the
    promise made by [catch] (3) in each stage. *)
Lemma stage_states sf :
  promise_state (stage sf) 0 = Some sf.1 ∧
  promise_state (stage sf) 1 =
    Some (if sf.2 then Fulfilled VUndefined else Pending) ∧
  promise_state (stage sf) 3 =
    Some (match sf.1 with
          | Pending => Pending
          | _ => if sf.2 then Fulfilled VUndefined else Pending
          end).
Proof. by destruct sf as [[| v | x] [|]]. Qed.

(** ** The constructor *)

Lemma perform_then_length p r rt0 :
  length (promises (perform_then p r rt0)) = length (promises rt0).
Proof.
  unfold perform_then.
  destruct (promises rt0 !! p) as [[[| |] rs]|]; simpl; try done.
  by rewrite length_insert.
Qed.

Section Constructor.
Context {B : Type}.
Implicit Types (w : world B) (o : IOptions.t).

Ltac heap_sub :=
  repeat first
    [ reflexivity
    | etrans; [|apply insert_subseteq, not_elem_of_dom, is_fresh] ].

Ltac heap_fresh :=
  let Hin := fresh "Hin" in
  intros Hin;
  match goal with
  | Hin : fresh (dom ?m) ∈ dom _ |- _ =>
      apply (is_fresh (dom m));
      eapply (subseteq_dom _ m); [|exact Hin]; heap_sub
  end.

Ltac heap_lookup :=
  match goal with
  | |- _ !! fresh (dom ?m) = Some ?ob =>
      eapply (lookup_weaken (<[fresh (dom m) := ob]> m));
      [apply lookup_insert_eq|heap_sub]
  end.

Ltac wired :=
  first
    [ done
    | solve [heap_sub]
    | solve [eexists; split; [reflexivity|]; split; [heap_fresh|heap_lookup]]
    | solve [f_equal; rewrite perform_then_length; simpl;
             rewrite length_app; simpl; lia]
    | solve [repeat first [ rewrite perform_then_length
                          | rewrite length_app
                          | progress simpl ]; lia] ].

(** What the constructor leaves behind, field by field. *)
Lemma constructor_spec o w :
  ∃ w1,
    constructor o w = Ok (tt, w1) ∧
    document w1 = document w ∧
    commands (this w1) = commands (this w) ∧
    started (this w1) = started (this w) ∧
    base (this w1) = base (this w) ∧
    _contextMenuEvent (this w1) = _contextMenuEvent (this w) ∧
    assigned (this w1) =
      assigned (this w) ++
      [F_commandLinker; F_docRegistry; F_restored; F_serviceManager] ∧
    heap w ⊆ heap w1 ∧
    override_or_default (prop (IOptions.commandLinker o))
      (commandLinker (this w1)) (CommandLinker (commands (this w)))
      (heap w) (heap w1) ∧
    override_or_default (prop (IOptions.docRegistry o))
      (docRegistry (this w1)) DocumentRegistry (heap w) (heap w1) ∧
    override_or_default (prop (IOptions.serviceManager o))
      (serviceManager (this w1)) ServiceManager (heap w) (heap w1) ∧
    restored (this w1) =
      (if truthy (prop (IOptions.restored o))
       then prop (IOptions.restored o)
       else VPromise (length (promises (rt w)) + 2)) ∧
    (truthy (prop (IOptions.commandLinker o)) = true →
     truthy (prop (IOptions.docRegistry o)) = true →
     truthy (prop (IOptions.serviceManager o)) = true →
     heap w1 = heap w) ∧
    length (promises (rt w1)) =
      length (promises (rt w)) +
      (if truthy (prop (IOptions.restored o)) then 1 else 3).
Proof.
  unfold constructor, bind, default_restored, in_rt, read, update,
    or_else, new, ret, override_or_default.
  simpl.
  destruct (truthy (prop (IOptions.commandLinker o))) eqn:H1;
  destruct (truthy (prop (IOptions.docRegistry o))) eqn:H2;
  destruct (truthy (prop (IOptions.restored o))) eqn:H3;
  destruct (truthy (prop (IOptions.serviceManager o))) eqn:H4; simpl;
  (eexists; split; [reflexivity|]); simpl;
  rewrite <- ?app_assoc; simpl;
  split_and!; wired.
Qed.

End Constructor.

(** The run time that the constructor leaves when it derives [restored]
    itself does not depend on the other options, nor on the rest of the
    world. *)
Lemma constructor_after_super {B : Type} (b : B) cmds d h s0 o :
  truthy (prop (IOptions.restored o)) = false →
  ∃ w1, constructor o (after_super b cmds d h s0) = Ok (tt, w1) ∧
        restored (this w1) = VPromise 3 ∧
        started (this w1) = 0 ∧
        rt w1 = constructed_runtime s0.
Proof.
  intros H3.
  unfold constructor, bind, default_restored, in_rt, read, update,
    or_else, new, ret.
  simpl. rewrite H3.
  destruct (truthy (prop (IOptions.commandLinker o)));
  destruct (truthy (prop (IOptions.docRegistry o)));
  destruct (truthy (prop (IOptions.serviceManager o))); simpl;
  (eexists; split; [reflexivity|]); by destruct s0.
Qed.

Lemma lifetime_constructed k s0 evs :
  lifetime (4 + k) 0 evs (constructed_runtime s0) =
    Some (stage (history s0 evs)).
Proof.
  unfold lifetime.
  assert (drain (4 + k) (constructed_runtime s0) = Some (stage (s0, false)))
    as ->.
  { apply drain_more. by destruct s0. }
  apply run_stage.
Qed.

Lemma truthy_non_null v : truthy v = true → non_null v.
Proof. by destruct v. Qed.

Lemma override_or_default_truthy v f ob h0 h1 :
  override_or_default v f ob h0 h1 → truthy f = true.
Proof.
  unfold override_or_default. destruct (truthy v) eqn:Hv.
  - by intros ->.
  - by intros (l & -> & _).
Qed.

Lemma nullish_falsy a : nullish a → truthy (prop a) = false.
Proof. by intros [->|[->| ->]]. Qed.

Lemma same_or_nullish_or_else {B : Type} a a' :
  same_or_nullish a a' →
  or_else (B := B) (prop a) = or_else (prop a').
Proof.
  intros [->|[Ha Ha']]; [done|].
  unfold or_else. by rewrite !nullish_falsy.
Qed.

(** The derivation of [restored] from [started] and the animation
    frame, in the world that [super(options)] leaves: the constructor's
    [restored] is promise 3, the default promise is promise 1 and is the
    one the frame request resolves; whatever events follow, the default
    promise is fulfilled with [undefined] once a frame was delivered and
    pending before, and [restored] is pending while [started] is, and
    afterwards in the state of the default promise. *)
Lemma restored_derivation {B : Type} (b : B) cmds d h s0 o :
  truthy (prop (IOptions.restored o)) = false →
  ∃ w1,
    constructor o (after_super b cmds d h s0) = Ok (tt, w1) ∧
    restored (this w1) = VPromise 3 ∧
    started (this w1) = 0 ∧
    frame_requests (rt w1) = [CallNoArgs (ResolveFn 1)] ∧
    ∀ k evs, ∃ r s,
      lifetime (4 + k) 0 evs (rt w1) = Some r ∧
      promise_state r 0 = Some s ∧
      (s0 ≠ Pending → s = s0) ∧
      (frame_delivered evs →
       promise_state r 1 = Some (Fulfilled VUndefined)) ∧
      (¬ frame_delivered evs → promise_state r 1 = Some Pending) ∧
      promise_state r 3 =
        match s with
        | Pending => Some Pending
        | _ => promise_state r 1
        end.
Proof.
  intros H3.
  destruct (constructor_after_super b cmds d h s0 o H3)
    as (w1 & Hc & Hr & Hs & Hrt).
  exists w1. split_and!; try done.
  { rewrite Hrt. by destruct s0. }
  intros k evs. rewrite Hrt, lifetime_constructed.
  destruct (stage_states (history s0 evs)) as (S0 & S1 & S3).
  pose proof (history_frame evs (s0, false)) as Hf. simpl in Hf.
  fold (history s0 evs) in Hf.
  exists (stage (history s0 evs)), (history s0 evs).1.
  split_and!; try done.
  - intros Hs0. by apply (history_started evs (s0, false)).
  - intros Hfd. rewrite S1.
    by rewrite (proj2 Hf (or_intror Hfd)).
  - intros Hnf. rewrite S1.
    destruct (history s0 evs).2; [|done].
    destruct (proj1 Hf eq_refl); done.
  - rewrite S3, S1. by destruct (history s0 evs).1.
Qed.

(** ** Methods do not touch the collaborators *)

Section Frame.
Context {B : Type} {app : Application B}.
Implicit Types (w : world B) (o : IOptions.t).

Lemma invoke_fields m w w' :
  invoke m w = Ok (tt, w') →
  commandLinker (this w') = commandLinker (this w) ∧
  docRegistry (this w') = docRegistry (this w) ∧
  restored (this w') = restored (this w) ∧
  serviceManager (this w') = serviceManager (this w) ∧
  (∀ f, f ≠ F_contextMenuEvent →
        times_assigned f (this w') = times_assigned f (this w)).
Proof.
  destruct m as [fuel test|e]; simpl.
  - unfold bind, ret.
    destruct (contextMenuFirst_cases fuel test w) as [[r Hr]|Hr];
      rewrite Hr; [|done].
    by intros [= <-].
  - rewrite evtContextMenu_eq. intros [= <-]. simpl. split_and!; try done.
    intros f Hf. unfold times_assigned. simpl.
    rewrite filter_app, length_app, filter_cons, filter_nil.
    destruct (decide (F_contextMenuEvent = f)); [congruence|]. simpl. lia.
Qed.

Lemma invoke_all_fields ms : ∀ w w',
  invoke_all ms w = Ok (tt, w') →
  commandLinker (this w') = commandLinker (this w) ∧
  docRegistry (this w') = docRegistry (this w) ∧
  restored (this w') = restored (this w) ∧
  serviceManager (this w') = serviceManager (this w) ∧
  (∀ f, f ≠ F_contextMenuEvent →
        times_assigned f (this w') = times_assigned f (this w)).
Proof.
  induction ms as [|m ms IH]; intros w w'; simpl.
  - by intros [= <-].
  - unfold bind at 1.
    destruct (invoke m w) as [[[] w1]| |] eqn:Hm; [|done..].
    intros Hms. apply IH in Hms as (-> & -> & -> & -> & Hn).
    apply invoke_fields in Hm as (-> & -> & -> & -> & Hn').
    split_and!; try done. intros f Hf. by rewrite Hn, Hn'.
Qed.

End Frame.

(** ** The claims about the constructor *)

Section ConstructorClaims.
Context {B : Type} {app : Application B}.
Implicit Types (w : world B) (o : IOptions.t).

(** C3. When all four overrides are supplied and truthy (as every
    object reference and every promise is), the constructor returns and
    the four fields hold the very values that were supplied; no default
    collaborator is built: the heap is as before. *)
Theorem constructor_overrides o w cl dr sm rs :
  IOptions.commandLinker o = Some cl →
  IOptions.docRegistry o = Some dr →
  IOptions.serviceManager o = Some sm →
  IOptions.restored o = Some rs →
  truthy cl = true → truthy dr = true →
  truthy sm = true → truthy rs = true →
  ∃ w1, constructor o w = Ok (tt, w1) ∧
        commandLinker (this w1) = cl ∧
        docRegistry (this w1) = dr ∧
        serviceManager (this w1) = sm ∧
        restored (this w1) = rs ∧
        heap w1 = heap w.
Proof.
  intros Ecl Edr Esm Ers Tcl Tdr Tsm Trs.
  destruct (constructor_spec o w)
    as (w1 & Hc & _ & _ & _ & _ & _ & _ & _ & Hcl & Hdr & Hsm & Hrs & Hh & _).
  unfold override_or_default in *.
  rewrite Ecl, Edr, Esm, Ers in *. simpl in *.
  rewrite Tcl in Hcl. rewrite Tdr in Hdr. rewrite Tsm in Hsm.
  rewrite Trs in Hrs.
  exists w1. split_and!; auto.
Qed.

(** C4. For every options record the constructor returns, and then none
    of the four collaborator fields is [null] or [undefined]: each holds
    its override when that is truthy, and otherwise a default made by
    the constructor: a reference that did not exist before, to a new
    [CommandLinker] on this application's commands, a new
    [DocumentRegistry], a new [ServiceManager]; for [restored] a promise
    that did not exist before. Each of the four fields is assigned once
    by the constructor, and no sequence of calls of [contextMenuFirst]
    and [evtContextMenu] assigns any of them again or changes its
    value. In the world that [super(options)] leaves, the default
    [restored] is derived from [started] and the animation frame: it is
    fulfilled with [undefined] once [started] has settled and a frame was
    delivered, and pending until then. *)
Theorem constructor_collaborators o w :
  ∃ w1,
    constructor o w = Ok (tt, w1) ∧
    (non_null (commandLinker (this w1)) ∧
     non_null (docRegistry (this w1)) ∧
     non_null (serviceManager (this w1)) ∧
     non_null (restored (this w1))) ∧
    override_or_default (prop (IOptions.commandLinker o))
      (commandLinker (this w1)) (CommandLinker (commands (this w)))
      (heap w) (heap w1) ∧
    override_or_default (prop (IOptions.docRegistry o))
      (docRegistry (this w1)) DocumentRegistry (heap w) (heap w1) ∧
    override_or_default (prop (IOptions.serviceManager o))
      (serviceManager (this w1)) ServiceManager (heap w) (heap w1) ∧
    (if truthy (prop (IOptions.restored o))
     then restored (this w1) = prop (IOptions.restored o)
     else ∃ p, restored (this w1) = VPromise p ∧
               length (promises (rt w)) ≤ p < length (promises (rt w1))) ∧
    (∀ f, f ≠ F_contextMenuEvent →
          times_assigned f (this w1) = S (times_assigned f (this w))) ∧
    (∀ ms w2, invoke_all ms w1 = Ok (tt, w2) →
       commandLinker (this w2) = commandLinker (this w1) ∧
       docRegistry (this w2) = docRegistry (this w1) ∧
       restored (this w2) = restored (this w1) ∧
       serviceManager (this w2) = serviceManager (this w1) ∧
       (∀ f, f ≠ F_contextMenuEvent →
             times_assigned f (this w2) = times_assigned f (this w1))) ∧
    (∀ b cmds d h s0 k evs,
       w = after_super b cmds d h s0 →
       truthy (prop (IOptions.restored o)) = false →
       ∃ r s p,
         lifetime (4 + k) (started (this w1)) evs (rt w1) = Some r ∧
         promise_state r (started (this w1)) = Some s ∧
         restored (this w1) = VPromise p ∧
         (s ≠ Pending → frame_delivered evs →
          promise_state r p = Some (Fulfilled VUndefined)) ∧
         (s = Pending ∨ ¬ frame_delivered evs →
          promise_state r p = Some Pending)).
Proof.
  destruct (constructor_spec o w)
    as (w1 & Hc & _ & _ & _ & _ & _ & Has & _ & Hcl & Hdr & Hsm & Hrs & _ & Hlen).
  exists w1. split; [done|]. split_and!; try done.
  - by eapply truthy_non_null, override_or_default_truthy.
  - by eapply truthy_non_null, override_or_default_truthy.
  - by eapply truthy_non_null, override_or_default_truthy.
  - rewrite Hrs. destruct (truthy (prop (IOptions.restored o))) eqn:Hr.
    + by apply truthy_non_null.
    + done.
  - destruct (truthy (prop (IOptions.restored o))); [done|].
    eexists. split; [done|]. lia.
  - intros f Hf. unfold times_assigned. rewrite Has.
    rewrite filter_app, length_app. simpl.
    destruct f; try done; simpl; lia.
  - intros ms w2. apply invoke_all_fields.
  - intros b cmds d h s0 k evs -> H3.
    destruct (restored_derivation b cmds d h s0 o H3)
      as (w1' & Hc' & Hr' & Hs' & _ & Hlife).
    rewrite Hc in Hc'. simplify_eq.
    destruct (Hlife k evs) as (r & s & Hl & S0 & _ & F1 & F0 & S3).
    exists r, s, 3. rewrite Hs'. split_and!; try done.
    + intros Hs Hfd. rewrite S3, (F1 Hfd). by destruct s.
    + intros [->|Hnf]; [done|]. rewrite S3, (F0 Hnf). by destruct s.
Qed.

(** C10. The override test is truthiness, not presence. A field that is
    supplied and truthy, as every object reference and every promise is,
    is kept as it is. A field whose value is falsy gets the default (a
    reference that did not exist before, to an object of the right
    class, or a promise that did not exist before), and this is so in
    particular for a field that is supplied but [null] or [undefined],
    exactly as for a missing one: two options records that differ only
    in fields that are missing, [undefined] or [null] in both make the
    constructor do the same thing, to the last detail. The resulting
    fields are never [null] or [undefined]. *)
Theorem constructor_truthiness o w :
  (∀ o',
     same_or_nullish (IOptions.commandLinker o) (IOptions.commandLinker o') →
     same_or_nullish (IOptions.docRegistry o) (IOptions.docRegistry o') →
     same_or_nullish (IOptions.serviceManager o) (IOptions.serviceManager o') →
     same_or_nullish (IOptions.restored o) (IOptions.restored o') →
     constructor o' w = constructor o w) ∧
  ∃ w1,
    constructor o w = Ok (tt, w1) ∧
    (nullish (IOptions.commandLinker o) →
     ∃ l, commandLinker (this w1) = VObj l ∧ (l ∉ dom (heap w)) ∧
          heap w1 !! l = Some (CommandLinker (commands (this w)))) ∧
    (nullish (IOptions.docRegistry o) →
     ∃ l, docRegistry (this w1) = VObj l ∧ (l ∉ dom (heap w)) ∧
          heap w1 !! l = Some DocumentRegistry) ∧
    (nullish (IOptions.serviceManager o) →
     ∃ l, serviceManager (this w1) = VObj l ∧ (l ∉ dom (heap w)) ∧
          heap w1 !! l = Some ServiceManager) ∧
    (nullish (IOptions.restored o) →
     ∃ p, restored (this w1) = VPromise p ∧
          length (promises (rt w)) ≤ p < length (promises (rt w1))) ∧
    non_null (commandLinker (this w1)) ∧
    non_null (docRegistry (this w1)) ∧
    non_null (serviceManager (this w1)) ∧
    non_null (restored (this w1)) ∧
    (∀ l, IOptions.commandLinker o = Some (VObj l) →
          commandLinker (this w1) = VObj l) ∧
    (∀ l, IOptions.docRegistry o = Some (VObj l) →
          docRegistry (this w1) = VObj l) ∧
    (∀ l, IOptions.serviceManager o = Some (VObj l) →
          serviceManager (this w1) = VObj l) ∧
    (∀ p, IOptions.restored o = Some (VPromise p) →
          restored (this w1) = VPromise p) ∧
    (∀ v, IOptions.commandLinker o = Some v → truthy v = true →
          commandLinker (this w1) = v) ∧
    (∀ v, IOptions.docRegistry o = Some v → truthy v = true →
          docRegistry (this w1) = v) ∧
    (∀ v, IOptions.serviceManager o = Some v → truthy v = true →
          serviceManager (this w1) = v) ∧
    (∀ v, IOptions.restored o = Some v → truthy v = true →
          restored (this w1) = v) ∧
    (truthy (prop (IOptions.commandLinker o)) = false →
     ∃ l, commandLinker (this w1) = VObj l ∧ (l ∉ dom (heap w)) ∧
          heap w1 !! l = Some (CommandLinker (commands (this w)))) ∧
    (truthy (prop (IOptions.docRegistry o)) = false →
     ∃ l, docRegistry (this w1) = VObj l ∧ (l ∉ dom (heap w)) ∧
          heap w1 !! l = Some DocumentRegistry) ∧
    (truthy (prop (IOptions.serviceManager o)) = false →
     ∃ l, serviceManager (this w1) = VObj l ∧ (l ∉ dom (heap w)) ∧
          heap w1 !! l = Some ServiceManager) ∧
    (truthy (prop (IOptions.restored o)) = false →
     ∃ p, restored (this w1) = VPromise p ∧
          length (promises (rt w)) ≤ p < length (promises (rt w1))).
Proof.
  split.
  - intros o' Hcl Hdr Hsm Hrs. unfold constructor.
    by rewrite (same_or_nullish_or_else _ _ Hcl),
      (same_or_nullish_or_else _ _ Hdr),
      (same_or_nullish_or_else _ _ Hsm),
      (same_or_nullish_or_else _ _ Hrs).
  - destruct (constructor_spec o w)
      as (w1 & Hc & _ & _ & _ & _ & _ & _ & _ & Hcl & Hdr & Hsm & Hrs & _ & Hlen).
    unfold override_or_default in Hcl, Hdr, Hsm.
    assert (∀ (f : value) a v, (if truthy (prop a) then f = prop a else
              ∃ l, f = VObj l ∧ (l ∉ dom (heap w)) ∧ heap w1 !! l = Some v) →
            ∀ x, a = Some x → truthy x = true → f = x) as Hkeep.
    { intros f a v H x -> Hx. simpl in H. by rewrite Hx in H. }
    assert (∀ x, IOptions.restored o = Some x → truthy x = true →
                 restored (this w1) = x) as Hkeep_rs.
    { intros x Hx Tx. rewrite Hrs, Hx. simpl. by rewrite Tx. }
    assert (truthy (prop (IOptions.restored o)) = false →
            ∃ p, restored (this w1) = VPromise p ∧
                 length (promises (rt w)) ≤ p < length (promises (rt w1)))
      as Hdef_rs.
    { intros Hn. rewrite Hn in Hrs, Hlen. eexists. split; [done|]. lia. }
    exists w1. split; [done|]. split_and!.
    + intros Hn%nullish_falsy. by rewrite Hn in Hcl.
    + intros Hn%nullish_falsy. by rewrite Hn in Hdr.
    + intros Hn%nullish_falsy. by rewrite Hn in Hsm.
    + intros Hn%nullish_falsy. by apply Hdef_rs.
    + by eapply truthy_non_null, (override_or_default_truthy _ _ _ _ _ Hcl).
    + by eapply truthy_non_null, (override_or_default_truthy _ _ _ _ _ Hdr).
    + by eapply truthy_non_null, (override_or_default_truthy _ _ _ _ _ Hsm).
    + rewrite Hrs. destruct (truthy (prop (IOptions.restored o))) eqn:Hr.
      * by apply truthy_non_null.
      * done.
    + intros l Hl. by eapply (Hkeep _ _ _ Hcl).
    + intros l Hl. by eapply (Hkeep _ _ _ Hdr).
    + intros l Hl. by eapply (Hkeep _ _ _ Hsm).
    + intros q Hq. by apply Hkeep_rs.
    + intros v. by apply (Hkeep _ _ _ Hcl).
    + intros v. by apply (Hkeep _ _ _ Hdr).
    + intros v. by apply (Hkeep _ _ _ Hsm).
    + done.
    + intros Hn. by rewrite Hn in Hcl.
    + intros Hn. by rewrite Hn in Hdr.
    + intros Hn. by rewrite Hn in Hsm.
    + done.
Qed.

End ConstructorClaims.

(** ** The claim about the [restored] promise *)

(** C2. When no truthy [restored] override is supplied, the constructor
    derives [restored] itself, and then, whatever the environment does
    afterwards (animation frames, [started] fulfilled or rejected, in any
    order and number, and also when [started] was rejected before the
    constructor ran): every turn finishes; [restored] is never rejected;
    and when [started] is rejected, [restored] is in the state of the
    default promise that the frame request resolves: fulfilled with
    [undefined] once a frame was delivered, pending before. *)
Theorem restored_absorbs_rejection {B : Type} (b : B) cmds d h s0 o :
  truthy (prop (IOptions.restored o)) = false →
  ∃ w1 p p0,
    constructor o (after_super b cmds d h s0) = Ok (tt, w1) ∧
    restored (this w1) = VPromise p ∧
    frame_requests (rt w1) = [CallNoArgs (ResolveFn p0)] ∧
    ∀ k evs, ∃ r,
      lifetime (4 + k) (started (this w1)) evs (rt w1) = Some r ∧
      (∀ x, promise_state r p ≠ Some (Rejected x)) ∧
      (∀ x, promise_state r (started (this w1)) = Some (Rejected x) →
         promise_state r p = promise_state r p0 ∧
         (frame_delivered evs →
          promise_state r p = Some (Fulfilled VUndefined)) ∧
         (¬ frame_delivered evs → promise_state r p = Some Pending)).
Proof.
  intros H3.
  destruct (restored_derivation b cmds d h s0 o H3)
    as (w1 & Hc & Hr & Hs & Hfr & Hlife).
  exists w1, 3, 1. split_and!; try done.
  intros k evs.
  destruct (Hlife k evs) as (r & s & Hl & S0 & _ & F1 & F0 & S3).
  exists r. rewrite Hs. split_and!; try done.
  - intros x. rewrite S3.
    destruct (frame_delivered_cases evs) as [Hfd|Hnf].
    + rewrite (F1 Hfd). by destruct s.
    + rewrite (F0 Hnf). by destruct s.
  - intros x Hx. rewrite S0 in Hx. simplify_eq. rewrite S3.
    split_and!; auto.
Qed.

(** [started] is rejected with a reason and the next animation frame is
    delivered: [restored] is fulfilled with [undefined]. *)
Lemma restored_absorbs_rejection_witness :
  truthy (prop (IOptions.restored no_options)) = false ∧
  ∃ w1 p r,
    constructor no_options (after_super tt VUndefined ∅ ∅ Pending) =
      Ok (tt, w1) ∧
    restored (this w1) = VPromise p ∧
    lifetime 4 (started (this w1)) rejected_then_frame (rt w1) = Some r ∧
    promise_state r (started (this w1)) =
      Some (Rejected (VStr "activation failed")) ∧
    promise_state r p = Some (Fulfilled VUndefined).
Proof.
  split; [reflexivity|].
  destruct (restored_absorbs_rejection tt VUndefined ∅ ∅ Pending no_options
              eq_refl)
    as (w1 & p & p0 & Hc & Hr & Hf & Hlife).
  destruct (Hlife 0 rejected_then_frame) as (r & Hl & Hnr & Hrej).
  exists w1, p, r.
  assert (promise_state r (started (this w1)) =
            Some (Rejected (VStr "activation failed"))) as Hs.
  { vm_compute in Hc. injection Hc as <-.
    vm_compute in Hl. injection Hl as <-. reflexivity. }
  split_and!; try done.
  apply (Hrej _ Hs). exists 16%Z. right. left.
Defined.

Lemma constructor_overrides_witness :
  ∃ w1, constructor all_overrides world_with_instances = Ok (tt, w1) ∧
        commandLinker (this w1) = VObj 10 ∧
        docRegistry (this w1) = VObj 11 ∧
        serviceManager (this w1) = VObj 12 ∧
        restored (this w1) = VPromise 0 ∧
        heap w1 = heap world_with_instances.
Proof.
  apply (constructor_overrides all_overrides world_with_instances
           (VObj 10) (VObj 11) (VObj 12) (VPromise 0));
    reflexivity.
Defined.

(** Four [null] options are wired like no options at all, and four
    instances are kept. *)
Lemma constructor_truthiness_witness :
  constructor all_null world_with_instances =
    constructor no_options world_with_instances ∧
  ∃ w1, constructor all_overrides world_with_instances = Ok (tt, w1) ∧
        commandLinker (this w1) = VObj 10 ∧
        docRegistry (this w1) = VObj 11 ∧
        serviceManager (this w1) = VObj 12 ∧
        restored (this w1) = VPromise 0.
Proof.
  split.
  - apply (proj1 (constructor_truthiness no_options world_with_instances)
                 all_null);
      (right; split; [by left|by right; right]).
  - destruct (proj2 (constructor_truthiness all_overrides
                       world_with_instances))
      as (w1 & Hc & _ & _ & _ & _ & _ & _ & _ & _ & Kcl & Kdr & Ksm & Krs & _).
    exists w1. split; [exact Hc|].
    split; [exact (Kcl _ eq_refl)|]. split; [exact (Kdr _ eq_refl)|].
    split; [exact (Ksm _ eq_refl)|]. exact (Krs _ eq_refl).
Defined.

(** ** Sanity checks on the examples *)

Example walk_abc :
  while_parentNode 2 doc_abc [3%positive] = Ok [3; 2; 1]%positive.
Proof. reflexivity. Qed.

Example walk_abc_short_of_fuel :
  while_parentNode 1 doc_abc [3%positive] = OutOfFuel.
Proof. reflexivity. Qed.

Example walk_self_parent :
  while_parentNode 1 doc_self [2%positive] = Ok [2; 1]%positive.
Proof. reflexivity. Qed.

Example walk_not_a_node :
  while_parentNode 0 doc_abc [9%positive] = Ok [9%positive].
Proof. reflexivity. Qed.

Example restored_while_started_pending :
  promise_state
    (at_rest (lifetime 4 0 [AnimationFrame 16] (constructed_runtime Pending)))
    3 = Some Pending.
Proof. reflexivity. Qed.

Example restored_after_start :
  promise_state
    (at_rest (lifetime 4 0 [StartedFulfils VUndefined; AnimationFrame 16]
                (constructed_runtime Pending)))
    3 = Some (Fulfilled VUndefined).
Proof. reflexivity. Qed.

(** * Further properties of the walk *)

(** The chain of a node on a chain is the rest of that chain. *)
Lemma chain_suffix d n l :
  chain d n l → ∀ k m, l !! k = Some m → chain d m (drop k l).
Proof.
  induction 1 as [n Hs|n p l Hp Hne Hc IH]; intros [|k] m Hk;
    simplify_eq/=.
  - by constructor.
  - by eapply chain_step.
  - by apply IH.
Qed.

(** A chain never meets a node twice, whatever the document. *)
Lemma chain_NoDup d n l : chain d n l → NoDup l.
Proof.
  induction 1 as [n Hs|n p l Hp Hne Hc IH].
  - apply NoDup_singleton.
  - apply NoDup_cons. split; [|done].
    intros [k Hk]%list_elem_of_lookup.
    pose proof (chain_suffix _ _ _ Hc _ _ Hk) as Hsuf.
    assert (chain d n (n :: l)) as Hfull by (by eapply chain_step).
    pose proof (chain_unique _ _ _ Hsuf _ Hfull) as Heq.
    apply (f_equal length) in Heq. rewrite length_drop in Heq.
    simpl in Heq. lia.
Qed.

(** A run of proper links from a node is no longer than its chain. *)
Lemma links_within_chain d n l :
  chain d n l → ∀ l2, links d n l2 → length l2 ≤ length l.
Proof.
  induction 1 as [n Hs|n p l Hp Hne Hc IH]; intros l2 Hl;
    inversion Hl as [|? p' l2' Hp' Hne' Hl']; subst; simpl; try lia.
  - destruct Hs; congruence.
  - assert (p' = p) as -> by congruence.
    specialize (IH _ Hl'). lia.
Qed.

(** The loop needs one iteration per element after the first. *)
Lemma while_parentNode_chain fuel d pre n l :
  chain d n l →
  (length l ≤ S fuel → while_parentNode fuel d (pre ++ [n]) = Ok (pre ++ l)) ∧
  (S fuel < length l → while_parentNode fuel d (pre ++ [n]) = OutOfFuel).
Proof.
  intros Hc.
  destruct (while_parentNode_cases fuel d pre n)
    as [(l' & Hc' & Hlen & Hw)|(l' & Hl' & Hlen & Hw)].
  - rewrite (chain_unique _ _ _ Hc _ Hc'). split; [done|lia].
  - pose proof (links_within_chain _ _ _ Hc _ Hl'). split; [lia|done].
Qed.

(** A chain only reads the [parentNode] entries of its own nodes. *)
Lemma chain_agree (d d' : tree) n l :
  chain d n l → (∀ x, x ∈ l → d' !! x = d !! x) → chain d' n l.
Proof.
  induction 1 as [n Hs|n p l Hp Hne Hc IH]; intros Hag.
  - constructor. unfold stops, parent in *.
    by rewrite (Hag n) by left.
  - eapply chain_step; [|done|].
    + unfold parent in *. by rewrite (Hag n) by left.
    + apply IH. intros x Hx. apply Hag. by right.
Qed.

(** A node reaches a stopping node exactly when it has a chain. *)
Lemma chain_exists d k : ∀ n z,
  ancestor d k n = Some z → stops d z → ∃ l, chain d n l.
Proof.
  induction k as [|k IH]; intros n z Hz Hs; simpl in Hz.
  - injection Hz as <-. exists [n]. by constructor.
  - destruct (parent d n) as [p|] eqn:Hp; [|done].
    destruct (decide (n = p)) as [<-|Hne].
    + exists [n]. constructor. by right.
    + destruct (IH p z Hz Hs) as [l Hl]. exists (n :: l).
      by eapply chain_step.
Qed.

Lemma chain_reaches d n l :
  chain d n l → ∃ k z, ancestor d k n = Some z ∧ stops d z.
Proof.
  intros Hc. destruct (chain_last _ _ _ Hc) as (z & Hz & Hs).
  rewrite last_lookup in Hz.
  exists (pred (length l)), z. split; [|done].
  eapply links_lookup; [by apply chain_links|done].
Qed.

Section WalkExtras.
Context {B : Type}.
Implicit Types (w : world B) (e : MouseEvent) (test : node → bool).

(** What a returned list is: empty when no event is recorded, and the
    chain of the recorded target otherwise. *)
Lemma getContextMenuNodes_Ok fuel w nodes w' :
  _getContextMenuNodes fuel w = Ok (nodes, w') →
  w' = w ∧
  match _contextMenuEvent (this w) with
  | None => nodes = []
  | Some e => chain (document w) (target e) nodes
  end.
Proof.
  intros Hr. destruct (_contextMenuEvent (this w)) as [e|] eqn:He.
  - destruct (getContextMenuNodes_recorded fuel w e He)
      as [(l & Hc & _ & Hw)|(l & _ & _ & Hw)]; rewrite Hw in Hr; [|done].
    by simplify_eq.
  - rewrite getContextMenuNodes_eq, He in Hr. by simplify_eq.
Qed.

Lemma getContextMenuNodes_of_chain fuel w e l :
  _contextMenuEvent (this w) = Some e →
  chain (document w) (target e) l →
  (length l ≤ S fuel → _getContextMenuNodes fuel w = Ok (l, w)) ∧
  (S fuel < length l → _getContextMenuNodes fuel w = OutOfFuel).
Proof.
  intros He Hc. rewrite getContextMenuNodes_eq, He.
  destruct (while_parentNode_chain fuel (document w) [] (target e) l Hc)
    as [Hok Hout]. simpl in *.
  split; intros Hlen; [rewrite (Hok Hlen)|rewrite (Hout Hlen)]; done.
Qed.

(** X1. No list that [_getContextMenuNodes] returns holds a node twice,
    in any document: [contextMenuFirst] never tests a node a second
    time. *)
Theorem getContextMenuNodes_NoDup fuel w nodes w' :
  _getContextMenuNodes fuel w = Ok (nodes, w') → NoDup nodes.
Proof.
  intros [_ Hn]%getContextMenuNodes_Ok.
  destruct (_contextMenuEvent (this w)).
  - by eapply chain_NoDup.
  - subst. apply NoDup_nil_2.
Qed.

(** X2. The walk reads the [parentNode] property of the nodes it
    returns and of nothing else: in a second world with the same
    recorded event whose document agrees with the first on those nodes,
    [_getContextMenuNodes] returns the same list and [contextMenuFirst]
    the same result, for every test. *)
Theorem contextMenuFirst_local fuel w w' nodes :
  _getContextMenuNodes fuel w = Ok (nodes, w) →
  _contextMenuEvent (this w') = _contextMenuEvent (this w) →
  (∀ x, x ∈ nodes → document w' !! x = document w !! x) →
  _getContextMenuNodes fuel w' = Ok (nodes, w') ∧
  ∀ test, ∃ r, contextMenuFirst fuel test w = Ok (r, w) ∧
               contextMenuFirst fuel test w' = Ok (r, w').
Proof.
  intros Hr Hslot Hag.
  assert (_getContextMenuNodes fuel w' = Ok (nodes, w')) as Hr'.
  { pose proof (getContextMenuNodes_Ok _ _ _ _ Hr) as [_ Hn].
    destruct (_contextMenuEvent (this w)) as [e|] eqn:He.
    - assert (length nodes ≤ S fuel) as Hlen.
      { destruct (getContextMenuNodes_of_chain fuel w e nodes He Hn)
          as [_ Hout].
        destruct (decide (length nodes ≤ S fuel)); [done|].
        rewrite Hout in Hr by lia. done. }
      apply (getContextMenuNodes_of_chain fuel w' e nodes); [done| |done].
      by apply (chain_agree (document w)).
    - subst. by rewrite getContextMenuNodes_eq, Hslot. }
  split; [done|]. intros test. exists (for_of_nodes test nodes).
  by rewrite !contextMenuFirst_eq, Hr, Hr'.
Qed.

(** X3. The list for a node found on a returned list is the rest of
    that list: when [m] is at index [k] of the list returned for the
    recorded target, a call in a world with the same document whose
    recorded target is [m] returns the list from index [k] on. *)
Theorem getContextMenuNodes_suffix fuel w w' e e' nodes k :
  _contextMenuEvent (this w) = Some e →
  _getContextMenuNodes fuel w = Ok (nodes, w) →
  nodes !! k = Some (target e') →
  _contextMenuEvent (this w') = Some e' →
  document w' = document w →
  _getContextMenuNodes fuel w' = Ok (drop k nodes, w').
Proof.
  intros He Hr Hk He' Hd.
  pose proof (getContextMenuNodes_Ok _ _ _ _ Hr) as [_ Hn].
  rewrite He in Hn.
  assert (length nodes ≤ S fuel) as Hlen.
  { destruct (getContextMenuNodes_of_chain fuel w e nodes He Hn) as [_ Hout].
    destruct (decide (length nodes ≤ S fuel)); [done|].
    rewrite Hout in Hr by lia. done. }
  apply (getContextMenuNodes_of_chain fuel w' e'); [done| |].
  - rewrite Hd. by eapply chain_suffix.
  - rewrite length_drop. lia.
Qed.

(** X4. A recorded target that has no [parentNode] property, a [null]
    parent, or is its own parent makes the walk stop at once: with any
    fuel the list is the target alone, and [contextMenuFirst] returns the
    target when it passes the test and [undefined] otherwise. *)
Theorem contextMenuFirst_detached fuel w e test :
  _contextMenuEvent (this w) = Some e →
  stops (document w) (target e) →
  _getContextMenuNodes fuel w = Ok ([target e], w) ∧
  contextMenuFirst fuel test w =
    Ok (if test (target e) then Some (target e) else None, w).
Proof.
  intros He Hs.
  assert (_getContextMenuNodes fuel w = Ok ([target e], w)) as Hr.
  { apply (getContextMenuNodes_of_chain fuel w e); [done| |simpl; lia].
    by constructor. }
  split; [done|]. rewrite contextMenuFirst_eq, Hr. simpl.
  by destruct (test (target e)).
Qed.

(** X5. Whether [contextMenuFirst] returns does not depend on the test:
    with an event recorded, some amount of fuel makes it return exactly
    when some ancestor of the target (the target included) has no parent
    or is its own parent. The list is built in full before the first
    test, so a target that passes the test does not help when its
    ancestors run in a cycle. *)
Theorem contextMenuFirst_returns_iff w e test :
  _contextMenuEvent (this w) = Some e →
  (∃ fuel r, contextMenuFirst fuel test w = Ok (r, w)) ↔
  (∃ k z, ancestor (document w) k (target e) = Some z ∧
          stops (document w) z).
Proof.
  intros He. split.
  - intros (fuel & r & Hr). rewrite contextMenuFirst_eq in Hr.
    destruct (_getContextMenuNodes fuel w) as [[l w']| |] eqn:Hn; [|done..].
    apply getContextMenuNodes_Ok in Hn as [_ Hc]. rewrite He in Hc.
    by eapply chain_reaches.
  - intros (k & z & Hz & Hs).
    destruct (chain_exists _ _ _ _ Hz Hs) as [l Hc].
    exists (length l), (for_of_nodes test l).
    rewrite contextMenuFirst_eq.
    destruct (getContextMenuNodes_of_chain (length l) w e l He Hc)
      as [Hok _]. by rewrite Hok by lia.
Qed.

(** X6. The loop runs once for every element of the list after the
    first: when [_getContextMenuNodes] returns a list, it returns that
    list with every fuel of at least [length nodes - 1] iterations and
    is still in the loop with any smaller fuel. *)
Theorem getContextMenuNodes_iterations fuel w nodes :
  _getContextMenuNodes fuel w = Ok (nodes, w) →
  ∀ fuel',
    (length nodes ≤ S fuel' → _getContextMenuNodes fuel' w = Ok (nodes, w)) ∧
    (S fuel' < length nodes → _getContextMenuNodes fuel' w = OutOfFuel).
Proof.
  intros Hr fuel'.
  pose proof (getContextMenuNodes_Ok _ _ _ _ Hr) as [_ Hn].
  destruct (_contextMenuEvent (this w)) as [e|] eqn:He.
  - by apply (getContextMenuNodes_of_chain fuel' w e).
  - subst. split; [|simpl; lia].
    intros _. by rewrite getContextMenuNodes_eq, He.
Qed.

End WalkExtras.

(** * Further properties of the methods *)

Section MethodExtras.
Context {B : Type} {app : Application B}.
Implicit Types (w : world B) (e : MouseEvent) (test : node → bool).

Lemma invoke_slot m w w' :
  invoke m w = Ok (tt, w') →
  _contextMenuEvent (this w') =
    match m with
    | ContextMenuFirst _ _ => _contextMenuEvent (this w)
    | EvtContextMenu e => Some e
    end.
Proof.
  destruct m as [fuel test|e]; simpl.
  - unfold bind, ret.
    destruct (contextMenuFirst_cases fuel test w) as [[r Hr]|Hr];
      rewrite Hr; [|done].
    by intros [= <-].
  - rewrite evtContextMenu_eq. by intros [= <-].
Qed.

(** X7. However calls of [contextMenuFirst] and [evtContextMenu] are
    mixed, afterwards the slot holds the event of the last
    [evtContextMenu] among them (what was there before when there was
    none): calls of [contextMenuFirst] in between change nothing, an
    event once recorded is never cleared, and [contextMenuFirst] then
    answers from the target of that last event. *)
Theorem invoke_all_last_event ms w w' :
  invoke_all ms w = Ok (tt, w') →
  _contextMenuEvent (this w') = last_recorded ms (_contextMenuEvent (this w)) ∧
  (is_Some (_contextMenuEvent (this w)) →
   is_Some (_contextMenuEvent (this w'))) ∧
  (∀ e fuel test r w'',
     last_recorded ms (_contextMenuEvent (this w)) = Some e →
     contextMenuFirst fuel test w' = Ok (r, w'') →
     first_ancestor (document w') (target e) test r).
Proof.
  intros Hms.
  assert (_contextMenuEvent (this w') =
            last_recorded ms (_contextMenuEvent (this w))) as Hslot.
  { revert w Hms. induction ms as [|m ms IH]; intros w; simpl.
    - by intros [= <-].
    - unfold bind at 1.
      destruct (invoke m w) as [[[] w1]| |] eqn:Hm; [|done..].
      intros Hms. rewrite (IH _ Hms). unfold last_recorded. simpl.
      apply invoke_slot in Hm. rewrite Hm. by destruct m. }
  split; [done|]. split.
  - rewrite Hslot. clear. unfold last_recorded.
    generalize (_contextMenuEvent (this w)).
    induction ms as [|m ms IH]; intros s Hs; simpl; [done|].
    apply IH. by destruct m.
  - intros e fuel test r w'' He Hr.
    eapply (contextMenuFirst_sound fuel test w' e); [|done]. by rewrite Hslot.
Qed.

End MethodExtras.

(** * Further properties of the constructor *)




Section ConstructorExtras.
Context {B : Type}.
Implicit Types (w : world B) (o : IOptions.t).










(** X10. Defaults do not alias: whichever of [commandLinker],
    [docRegistry] and [serviceManager] the constructor builds itself are
    different objects. *)
Theorem constructor_defaults_distinct o w :
  ∃ w1,
    constructor o w = Ok (tt, w1) ∧
    (truthy (prop (IOptions.commandLinker o)) = false →
     truthy (prop (IOptions.docRegistry o)) = false →
     commandLinker (this w1) ≠ docRegistry (this w1)) ∧
    (truthy (prop (IOptions.commandLinker o)) = false →
     truthy (prop (IOptions.serviceManager o)) = false →
     commandLinker (this w1) ≠ serviceManager (this w1)) ∧
    (truthy (prop (IOptions.docRegistry o)) = false →
     truthy (prop (IOptions.serviceManager o)) = false →
     docRegistry (this w1) ≠ serviceManager (this w1)).
Proof.
  destruct (constructor_spec o w)
    as (w1 & Hc & _ & _ & _ & _ & _ & _ & _ & Hcl & Hdr & Hsm & _).
  exists w1. split; [done|]. unfold override_or_default in *.
  split_and!; intros H1 H2;
    repeat match goal with
           | H : truthy ?v = false, H' : context [truthy ?v] |- _ =>
               rewrite H in H'
           end.
  - destruct Hcl as (l1 & -> & _ & L1), Hdr as (l2 & -> & _ & L2).
    intros [= ->]. congruence.
  - destruct Hcl as (l1 & -> & _ & L1), Hsm as (l2 & -> & _ & L2).
    intros [= ->]. congruence.
  - destruct Hdr as (l1 & -> & _ & L1), Hsm as (l2 & -> & _ & L2).
    intros [= ->]. congruence.
Qed.





End ConstructorExtras.

(** X13. The derived [restored] promise settles once and for good: in
    the world that [super(options)] leaves and without a [restored]
    override, after any events it is either pending or fulfilled with
    [undefined], and once it is fulfilled no further event (a late
    rejection of [started], more frames) changes that. *)
Theorem restored_is_final {B : Type} (b : B) cmds d h s0 o :
  truthy (prop (IOptions.restored o)) = false →
  ∃ w1 p,
    constructor o (after_super b cmds d h s0) = Ok (tt, w1) ∧
    restored (this w1) = VPromise p ∧
    ∀ k evs more, ∃ r r',
      lifetime (4 + k) (started (this w1)) evs (rt w1) = Some r ∧
      lifetime (4 + k) (started (this w1)) (evs ++ more) (rt w1) = Some r' ∧
      (promise_state r p = Some Pending ∨
       promise_state r p = Some (Fulfilled VUndefined)) ∧
      (promise_state r p = Some (Fulfilled VUndefined) →
       promise_state r' p = Some (Fulfilled VUndefined)).
Proof.
  intros H3.
  destruct (constructor_after_super b cmds d h s0 o H3)
    as (w1 & Hc & Hr & Hs & Hrt).
  exists w1, 3. split_and!; try done.
  intros k evs more. rewrite Hs, Hrt, !lifetime_constructed.
  eexists _, _. split; [done|]. split; [done|].
  unfold history. rewrite foldl_app.
  set (sf := foldl observe (s0, false) evs).
  destruct (stage_states sf) as (_ & _ & S3).
  destruct (stage_states (foldl observe sf more)) as (_ & _ & S3').
  rewrite S3, S3'. split.
  - destruct sf.1, sf.2; auto.
  - intros Hf.
    assert (sf.1 ≠ Pending ∧ sf.2 = true) as [H1 H2].
    { destruct sf.1, sf.2; simplify_eq; done. }
    rewrite (history_started more sf H1).
    rewrite (proj2 (history_frame more sf) (or_introl H2)).
    by destruct sf.1.
Qed.

(** ** The further properties on the example documents *)

Lemma getContextMenuNodes_NoDup_witness :
  _getContextMenuNodes 2 (world_abc_on 3) =
    Ok ([3; 2; 1]%positive, world_abc_on 3) ∧
  NoDup [3; 2; 1]%positive.
Proof.
  split; [reflexivity|].
  apply (getContextMenuNodes_NoDup 2 (world_abc_on 3) _ (world_abc_on 3)).
  reflexivity.
Defined.

Lemma contextMenuFirst_local_witness :
  _getContextMenuNodes 2 (recorded doc_abc_more (Some (click 7 3))) =
    Ok ([3; 2; 1]%positive, recorded doc_abc_more (Some (click 7 3))) ∧
  ∀ test, ∃ r,
    contextMenuFirst 2 test (world_abc_on 3) = Ok (r, world_abc_on 3) ∧
    contextMenuFirst 2 test (recorded doc_abc_more (Some (click 7 3))) =
      Ok (r, recorded doc_abc_more (Some (click 7 3))).
Proof.
  apply (contextMenuFirst_local 2 (world_abc_on 3)
           (recorded doc_abc_more (Some (click 7 3))) [3; 2; 1]%positive).
  - reflexivity.
  - reflexivity.
  - intros x Hx. unfold doc_abc_more. simpl.
    apply lookup_insert_ne. intros <-.
    repeat (apply elem_of_cons in Hx as [Hx|Hx]; [discriminate Hx|]).
    inversion Hx.
Defined.

Lemma getContextMenuNodes_suffix_witness :
  _getContextMenuNodes 2 (world_abc_on 2) =
    Ok ([2; 1]%positive, world_abc_on 2).
Proof.
  apply (getContextMenuNodes_suffix 2 (world_abc_on 3) (world_abc_on 2)
           (click 7 3) (click 7 2) [3; 2; 1]%positive 1);
    reflexivity.
Defined.

Lemma contextMenuFirst_detached_witness :
  stops doc_abc 1%positive ∧
  _getContextMenuNodes 0 (world_abc_on 1) =
    Ok ([1%positive], world_abc_on 1) ∧
  contextMenuFirst 0 (λ n, bool_decide (n = 2%positive)) (world_abc_on 1) =
    Ok (None, world_abc_on 1).
Proof.
  split; [by left|].
  exact (contextMenuFirst_detached 0 (world_abc_on 1) (click 7 1)
           (λ n, bool_decide (n = 2%positive)) eq_refl (or_introl eq_refl)).
Defined.

Lemma contextMenuFirst_returns_iff_witness :
  (∃ fuel r, contextMenuFirst fuel (λ _, true) (world_abc_on 3) =
               Ok (r, world_abc_on 3)) ↔
  (∃ k z, ancestor doc_abc k 3%positive = Some z ∧ stops doc_abc z).
Proof.
  apply (contextMenuFirst_returns_iff (world_abc_on 3) (click 7 3)).
  reflexivity.
Defined.

Lemma getContextMenuNodes_iterations_witness :
  _getContextMenuNodes 2 (world_abc_on 3) =
    Ok ([3; 2; 1]%positive, world_abc_on 3) ∧
  _getContextMenuNodes 1 (world_abc_on 3) = OutOfFuel.
Proof.
  split; [reflexivity|].
  apply (getContextMenuNodes_iterations 2 (world_abc_on 3)
           [3; 2; 1]%positive eq_refl 1).
  simpl. lia.
Defined.

Lemma invoke_all_last_event_witness :
  ∃ w', invoke_all (app := inert_application) calls_example
          (recorded doc_abc None) = Ok (tt, w') ∧
        _contextMenuEvent (this w') = Some (click 8 2).
Proof.
  eexists. split; [reflexivity|].
  apply (invoke_all_last_event (app := inert_application) calls_example
           (recorded doc_abc None) _ eq_refl).
Defined.


Lemma restored_is_final_witness :
  truthy (prop (IOptions.restored no_options)) = false ∧
  ∃ w1 p,
    constructor no_options (after_super tt VUndefined ∅ ∅ Pending) =
      Ok (tt, w1) ∧
    restored (this w1) = VPromise p ∧
    ∀ k evs more, ∃ r r',
      lifetime (4 + k) (started (this w1)) evs (rt w1) = Some r ∧
      lifetime (4 + k) (started (this w1)) (evs ++ more) (rt w1) = Some r' ∧
      (promise_state r p = Some Pending ∨
       promise_state r p = Some (Fulfilled VUndefined)) ∧
      (promise_state r p = Some (Fulfilled VUndefined) →
       promise_state r' p = Some (Fulfilled VUndefined)).
Proof.
  split; [reflexivity|].
  apply (restored_is_final tt VUndefined ∅ ∅ Pending no_options).
  reflexivity.
Defined.
